(** * Smash Fest: vehicle physics, collision damage, reconciliation and relay

    A shallow embedding, over the real numbers, of the game core:
    - [packages/nextjs/app/game/car.ts] (vehicle model, hit zones),
    - the physics module (integrator, vehicle-vehicle and wall collisions),
    - [hooks/useMultiplayer.ts] (remote-vehicle reconciliation),
    - [party/server.ts] (the relay),
    - [multiplayer.ts] (network records) and the game page (spawning,
      joystick input).

    Numbers are modelled as [R]; [Math.random()] and [Date.now()] are
    explicit arguments.  Objects mutated in place become values returned by
    the functions. *)

From Stdlib Require Import Reals Psatz ZArith.
From stdpp Require Import base gmap strings list.

Open Scope R_scope.

(* ------------------------------------------------------------------ *)
(** ** Constants ([constants.ts]) *)

Definition WORLD_WIDTH : R := 2700.
Definition WORLD_HEIGHT : R := 1800.
Definition CAR_WIDTH : R := 50.
Definition CAR_HEIGHT : R := 30.
Definition WALL_THICKNESS : R := 20.
Definition ACCELERATION : R := 0.15.
Definition BRAKE_DECEL : R := 0.1.
Definition MAX_SPEED : R := 8.
Definition TURN_RATE : R := 0.025.
Definition FORWARD_FRICTION : R := 0.98.
Definition SIDEWAYS_FRICTION : R := 0.85.
Definition ANGULAR_FRICTION : R := 0.85.
Definition BOUNCE_FACTOR : R := 0.5.
Definition COLLISION_DAMPING : R := 0.7.
Definition MIN_SPEED_TO_TURN : R := 0.5.
Definition MAX_ANGULAR_VEL : R := 0.08.
Definition DAMAGE_MULTIPLIER : R := 3.
Definition MIN_IMPACT_FOR_DAMAGE : R := 2.
Definition ATTACKER_DAMAGE_RATIO : R := 0.15.

(* ------------------------------------------------------------------ *)
(** ** Types ([types.ts]) *)

Record Health := mkHealth {
  front : R;
  rear : R;
  left : R;
  right : R;
}.

Record Car := mkCar {
  x : R;
  y : R;
  vx : R;
  vy : R;
  angle : R;
  angularVel : R;
  width : R;
  height : R;
  color : string;
  health : Health;
  isStatic : bool;
}.

Record AnalogInput := mkInput {
  forward : R;
  reverse : R;
  in_left : R;
  in_right : R;
}.

Inductive HitZone := ZFront | ZRear | ZLeft | ZRight.

Record DamagePopup := mkPopup {
  px : R;
  py : R;
  damage : R;
  zone : HitZone;
  age : R;
}.

Record Point := mkPoint { ptx : R; pty : R }.

(** [car.health[zone]] *)
Definition get_zone (h : Health) (z : HitZone) : R :=
  match z with
  | ZFront => front h | ZRear => rear h | ZLeft => left h | ZRight => right h
  end.

(** [car.health[zone] = v] *)
Definition set_zone (h : Health) (z : HitZone) (v : R) : Health :=
  match z with
  | ZFront => mkHealth v (rear h) (left h) (right h)
  | ZRear => mkHealth (front h) v (left h) (right h)
  | ZLeft => mkHealth (front h) (rear h) v (right h)
  | ZRight => mkHealth (front h) (rear h) (left h) v
  end.

(** Functional record updates for the fields the code assigns. *)
Definition set_pos (c : Car) (nx ny : R) : Car :=
  mkCar nx ny (vx c) (vy c) (angle c) (angularVel c) (width c) (height c)
    (color c) (health c) (isStatic c).
Definition set_vel (c : Car) (nvx nvy : R) : Car :=
  mkCar (x c) (y c) nvx nvy (angle c) (angularVel c) (width c) (height c)
    (color c) (health c) (isStatic c).
Definition set_ang (c : Car) (a w : R) : Car :=
  mkCar (x c) (y c) (vx c) (vy c) a w (width c) (height c)
    (color c) (health c) (isStatic c).
Definition set_health (c : Car) (h : Health) : Car :=
  mkCar (x c) (y c) (vx c) (vy c) (angle c) (angularVel c) (width c) (height c)
    (color c) h (isStatic c).

(* ------------------------------------------------------------------ *)
(** ** JavaScript [Math] functions *)

(** [Math.round]: the floor of [v + 0.5] (halves round up). *)
Definition js_round (v : R) : R := IZR (Int_part (v + / 2)).

(** [Math.atan2(y, x)] on reals (signed zeros are not modelled). *)
Definition js_atan2 (yv xv : R) : R :=
  if Rlt_dec 0 xv then atan (yv / xv)
  else if Rlt_dec xv 0 then
    (if Rle_dec 0 yv then atan (yv / xv) + PI else atan (yv / xv) - PI)
  else if Rlt_dec 0 yv then PI / 2
  else if Rlt_dec yv 0 then - (PI / 2)
  else 0.

(* ------------------------------------------------------------------ *)
(** ** Vehicle model ([car.ts]) *)

(** [createCar(x, y, color, angle = 0, isStatic = false)] *)
Definition createCar (x0 y0 : R) (col : string) (a : R) (st : bool) : Car :=
  mkCar x0 y0 0 0 a 0 CAR_WIDTH CAR_HEIGHT col (mkHealth 100 100 100 100) st.

(** [getCarCorners] *)
Definition getCarCorners (car : Car) : list Point :=
  let c := cos (angle car) in
  let s := sin (angle car) in
  let hw := width car / 2 in
  let hh := height car / 2 in
  [ mkPoint (x car + c * hw - s * hh) (y car + s * hw + c * hh);
    mkPoint (x car + c * hw + s * hh) (y car + s * hw - c * hh);
    mkPoint (x car - c * hw + s * hh) (y car - s * hw - c * hh);
    mkPoint (x car - c * hw - s * hh) (y car - s * hw + c * hh) ].

(** [while (a > Math.PI) a -= 2 * Math.PI;] run for at most [fuel] rounds. *)
Fixpoint wrap_down (fuel : nat) (a : R) : R :=
  match fuel with
  | O => a
  | S f => if Rlt_dec PI a then wrap_down f (a - 2 * PI) else a
  end.

(** [while (a < -Math.PI) a += 2 * Math.PI;] run for at most [fuel] rounds. *)
Fixpoint wrap_up (fuel : nat) (a : R) : R :=
  match fuel with
  | O => a
  | S f => if Rlt_dec a (- PI) then wrap_up f (a + 2 * PI) else a
  end.

(** A bound on the number of rounds of either loop; [loop_fuel_enough]
    below shows that the loops always exit before it runs out, so the
    bounded loops compute what the JavaScript loops compute. *)
Definition loop_fuel (a : R) : nat := S (Z.to_nat (up (Rabs a / (2 * PI)))).

(** The two normalising loops of [getHitZone] (and of the angle
    interpolation), one after the other. *)
Definition normalize_angle (a : R) : R :=
  wrap_up (loop_fuel a) (wrap_down (loop_fuel a) a).

(** [lo <= r && r < hi] *)
Definition in_range (lo hi r : R) : bool :=
  if Rle_dec lo r then (if Rlt_dec r hi then true else false) else false.

(** The bucketing of [getHitZone] on the normalised relative angle. *)
Definition zone_of_relative (r : R) : HitZone :=
  if in_range (- PI / 4) (PI / 4) r then ZFront
  else if in_range (PI / 4) (3 * PI / 4) r then ZRight
  else if in_range (-3 * PI / 4) (- PI / 4) r then ZLeft
  else ZRear.

(** [getHitZone] *)
Definition getHitZone (car : Car) (collisionAngle : R) : HitZone :=
  zone_of_relative (normalize_angle (collisionAngle - angle car)).

(** [checkCarCollision] *)
Definition checkCarCollision (car1 car2 : Car) : bool :=
  let dx := x car2 - x car1 in
  let dy := y car2 - y car1 in
  let distance := sqrt (dx * dx + dy * dy) in
  let minDistance := (width car1 + width car2) / 2 * 0.85 in
  if Rlt_dec distance minDistance then true else false.

(* ------------------------------------------------------------------ *)
(** ** Physics ([physics.ts]) *)

(** [a > b], [a < b] and [a === b] as booleans. *)
Definition Rgtb (a b : R) : bool := if Rlt_dec b a then true else false.
Definition Rltb (a b : R) : bool := if Rlt_dec a b then true else false.
Definition Reqb (a b : R) : bool := if Req_dec_T a b then true else false.

(** [updatePlayerCarPhysics]: the updated car and the returned speed. *)
Definition updatePlayerCarPhysics (car : Car) (input : AnalogInput) : Car * R :=
  let currentSpeed := sqrt (vx car * vx car + vy car * vy car) in
  let steeringFactor :=
    if Rlt_dec currentSpeed MIN_SPEED_TO_TURN
    then currentSpeed / MIN_SPEED_TO_TURN * 0.3
    else Rmin 1 (currentSpeed / 3) in
  let w0 := angularVel car in
  let w1 := if Rgtb (in_left input) 0
            then w0 - TURN_RATE * steeringFactor * in_left input else w0 in
  let w2 := if Rgtb (in_right input) 0
            then w1 + TURN_RATE * steeringFactor * in_right input else w1 in
  let w3 := Rmax (- MAX_ANGULAR_VEL) (Rmin MAX_ANGULAR_VEL w2) in
  let w4 := w3 * ANGULAR_FRICTION in
  let a := angle car + w4 in
  let forwardX := cos a in
  let forwardY := sin a in
  let '(vx1, vy1) :=
    if Rgtb (forward input) 0
    then (vx car + forwardX * ACCELERATION * forward input,
          vy car + forwardY * ACCELERATION * forward input)
    else (vx car, vy car) in
  let '(vx2, vy2) :=
    if Rgtb (reverse input) 0 then
      let forwardSpeed := vx1 * forwardX + vy1 * forwardY in
      if Rgtb forwardSpeed 0.5
      then (vx1 - forwardX * BRAKE_DECEL * reverse input,
            vy1 - forwardY * BRAKE_DECEL * reverse input)
      else (vx1 - forwardX * ACCELERATION * 0.5 * reverse input,
            vy1 - forwardY * ACCELERATION * 0.5 * reverse input)
    else (vx1, vy1) in
  let rightX := - forwardY in
  let rightY := forwardX in
  let forwardVel := vx2 * forwardX + vy2 * forwardY in
  let sidewaysVel := vx2 * rightX + vy2 * rightY in
  let newForwardVel := forwardVel * FORWARD_FRICTION in
  let newSidewaysVel := sidewaysVel * SIDEWAYS_FRICTION in
  let vx3 := forwardX * newForwardVel + rightX * newSidewaysVel in
  let vy3 := forwardY * newForwardVel + rightY * newSidewaysVel in
  let newSpeed := sqrt (vx3 * vx3 + vy3 * vy3) in
  let '(vx4, vy4) :=
    if Rgtb newSpeed MAX_SPEED
    then (vx3 / newSpeed * MAX_SPEED, vy3 / newSpeed * MAX_SPEED)
    else (vx3, vy3) in
  (mkCar (x car + vx4) (y car + vy4) vx4 vy4 a w4 (width car) (height car)
     (color car) (health car) (isStatic car), newSpeed).

(** The result of [handleCarCollision]: both cars after the call (they are
    mutated in place), the returned collision time and the popup array
    after the call (it is pushed to in place). *)
Record CollisionResult := mkCollisionResult {
  cr_player : Car;
  cr_target : Car;
  cr_time : R;
  cr_popups : list DamagePopup;
}.

(** [handleCarCollision]; [rnd1] and [rnd2] are the two [Math.random()]
    draws, [now] is [Date.now()]. *)
Definition handleCarCollision (playerCar targetCar : Car) (lastCollisionTime : R)
    (damagePopups : list DamagePopup) (rnd1 rnd2 now : R) : CollisionResult :=
  let unchanged := mkCollisionResult playerCar targetCar lastCollisionTime damagePopups in
  if negb (checkCarCollision playerCar targetCar) then unchanged else
  let dx := x targetCar - x playerCar in
  let dy := y targetCar - y playerCar in
  let distance := sqrt (dx * dx + dy * dy) in
  let minDist := (width playerCar + width targetCar) / 2 * 0.85 in
  if negb (Rltb distance minDist) || Reqb distance 0 then unchanged else
  let nx := dx / distance in
  let ny := dy / distance in
  let overlap := minDist - distance in
  let separationForce := overlap + 2 in
  let p1 := set_pos playerCar (x playerCar - nx * separationForce * 0.6)
                              (y playerCar - ny * separationForce * 0.6) in
  let t1 := set_pos targetCar (x targetCar + nx * separationForce * 0.4)
                              (y targetCar + ny * separationForce * 0.4) in
  let relVx := vx p1 - vx t1 in
  let relVy := vy p1 - vy t1 in
  let impactSpeed := Rabs (relVx * nx + relVy * ny) in
  let bounce := 0.7 in
  let impactComponent := relVx * nx + relVy * ny in
  let '(p2, t2) :=
    if Rgtb impactComponent 0 then
      (set_vel p1 (vx p1 - nx * impactComponent * bounce)
                  (vy p1 - ny * impactComponent * bounce),
       set_vel t1 (vx t1 + nx * impactComponent * bounce * 0.8)
                  (vy t1 + ny * impactComponent * bounce * 0.8))
    else
      (set_vel p1 (vx p1 - nx * impactComponent * bounce * 0.8)
                  (vy p1 - ny * impactComponent * bounce * 0.8),
       set_vel t1 (vx t1 + nx * impactComponent * bounce)
                  (vy t1 + ny * impactComponent * bounce)) in
  let p3 := set_ang p2 (angle p2) (angularVel p2 + (rnd1 - 0.5) * 0.1) in
  let t3 := set_ang t2 (angle t2) (angularVel t2 + (rnd2 - 0.5) * 0.12) in
  if Rltb (now - lastCollisionTime) 150
  then mkCollisionResult p3 t3 lastCollisionTime damagePopups else
  if Rgtb impactSpeed MIN_IMPACT_FOR_DAMAGE then
    let collisionAngle := js_atan2 dy dx in
    let playerHitZone := getHitZone p3 collisionAngle in
    let targetHitZone := getHitZone t3 (collisionAngle + PI) in
    let dmg := js_round ((impactSpeed - MIN_IMPACT_FOR_DAMAGE) * DAMAGE_MULTIPLIER) in
    let p4 := set_health p3 (set_zone (health p3) playerHitZone
                (Rmax 0 (get_zone (health p3) playerHitZone - dmg * ATTACKER_DAMAGE_RATIO))) in
    let t4 := set_health t3 (set_zone (health t3) targetHitZone
                (Rmax 0 (get_zone (health t3) targetHitZone - dmg))) in
    let popup := mkPopup ((x p4 + x t4) / 2) ((y p4 + y t4) / 2 - 20)
                         dmg targetHitZone 0 in
    mkCollisionResult p4 t4 now (damagePopups ++ [popup])
  else mkCollisionResult p3 t3 lastCollisionTime damagePopups.

(** One round of the [for (const corner of corners)] loop of
    [handleWallCollisions]: the car and the [collided] flag. *)
Definition wall_corner_step (st : Car * bool) (corner : Point) : Car * bool :=
  let '(c0, b0) := st in
  let '(c1, b1) :=
    if Rltb (ptx corner) WALL_THICKNESS then
      let c := set_pos c0 (x c0 + (WALL_THICKNESS - ptx corner)) (y c0) in
      let c := set_vel c (Rabs (vx c) * BOUNCE_FACTOR) (vy c) in
      (set_vel c (vx c * COLLISION_DAMPING) (vy c * COLLISION_DAMPING), true)
    else (c0, b0) in
  let '(c2, b2) :=
    if Rgtb (ptx corner) (WORLD_WIDTH - WALL_THICKNESS) then
      let c := set_pos c1 (x c1 - (ptx corner - (WORLD_WIDTH - WALL_THICKNESS))) (y c1) in
      let c := set_vel c (- Rabs (vx c) * BOUNCE_FACTOR) (vy c) in
      (set_vel c (vx c * COLLISION_DAMPING) (vy c * COLLISION_DAMPING), true)
    else (c1, b1) in
  let '(c3, b3) :=
    if Rltb (pty corner) WALL_THICKNESS then
      let c := set_pos c2 (x c2) (y c2 + (WALL_THICKNESS - pty corner)) in
      let c := set_vel c (vx c) (Rabs (vy c) * BOUNCE_FACTOR) in
      (set_vel c (vx c * COLLISION_DAMPING) (vy c * COLLISION_DAMPING), true)
    else (c2, b2) in
  if Rgtb (pty corner) (WORLD_HEIGHT - WALL_THICKNESS) then
    let c := set_pos c3 (x c3) (y c3 - (pty corner - (WORLD_HEIGHT - WALL_THICKNESS))) in
    let c := set_vel c (vx c) (- Rabs (vy c) * BOUNCE_FACTOR) in
    (set_vel c (vx c * COLLISION_DAMPING) (vy c * COLLISION_DAMPING), true)
  else (c3, b3).

(** [handleWallCollisions]; the corners are computed once, before the
    loop; [rnd] is the [Math.random()] draw. *)
Definition handleWallCollisions (car : Car) (rnd : R) : Car * bool :=
  let corners := getCarCorners car in
  let '(c, collided) := fold_left wall_corner_step corners (car, false) in
  if collided
  then (set_ang c (angle c) (angularVel c + (rnd - 0.5) * 0.1), true)
  else (c, false).

(** The displacement one corner contributes to one coordinate of the car in
    [wall_corner_step]: pushed back in when below [lo], pulled back when
    above [hi]. *)
Definition wall_shift (p lo hi : R) : R :=
  (if Rltb p lo then lo - p else 0) + (if Rgtb p hi then - (p - hi) else 0).

Definition shift_x (p : Point) : R := wall_shift (ptx p) WALL_THICKNESS (WORLD_WIDTH - WALL_THICKNESS).

Definition shift_y (p : Point) : R := wall_shift (pty p) WALL_THICKNESS (WORLD_HEIGHT - WALL_THICKNESS).

(** The total displacement over the corners of the loop. *)
Fixpoint sum_shift (f : Point -> R) (l : list Point) : R :=
  match l with [] => 0 | p :: l' => f p + sum_shift f l' end.

(** A point inside the world inset by the wall thickness, and a car all of
    whose corners are. *)
Definition in_box (p : Point) : Prop :=
  WALL_THICKNESS <= ptx p <= WORLD_WIDTH - WALL_THICKNESS /\
  WALL_THICKNESS <= pty p <= WORLD_HEIGHT - WALL_THICKNESS.

Definition corners_in_bounds (c : Car) : Prop := Forall in_box (getCarCorners c).

(** One tick of [updatePhysics] for the local car when no other player is
    tracked: the integrator, then the wall pass; [rnd] is the draw of the
    wall pass.  [run n] performs [n] ticks with the [k]-th input and draw. *)
Definition tick (c : Car) (input : AnalogInput) (rnd : R) : Car :=
  fst (handleWallCollisions (fst (updatePlayerCarPhysics c input)) rnd).

Fixpoint run (n : nat) (c : Car) (inputs : nat -> AnalogInput) (rnds : nat -> R) : Car :=
  match n with
  | O => c
  | S k => tick (run k c inputs rnds) (inputs k) (rnds k)
  end.

(* ------------------------------------------------------------------ *)
(** ** Network payloads ([multiplayer.ts]) *)

Record PlayerState := mkPlayerState {
  ps_id : string;
  ps_x : R;
  ps_y : R;
  ps_vx : R;
  ps_vy : R;
  ps_angle : R;
  ps_angularVel : R;
  ps_color : string;
  ps_health : Health;
}.

(** [playerStateToCar] *)
Definition playerStateToCar (s : PlayerState) : Car :=
  mkCar (ps_x s) (ps_y s) (ps_vx s) (ps_vy s) (ps_angle s) (ps_angularVel s)
    50 30 (ps_color s) (ps_health s) false.

(* ------------------------------------------------------------------ *)
(** ** Reconciliation layer ([useMultiplayer.ts]) *)

Definition INTERPOLATION_FACTOR : R := 0.3.

Record InterpolatedCar := mkInterpolated {
  current : Car;
  target : Car;
}.

(** The body of the [forEach] of [interpolateOtherPlayers] for one entry. *)
Definition interpolate_entry (p : InterpolatedCar) : InterpolatedCar :=
  let c := current p in
  let t := target p in
  let angleDiff := normalize_angle (angle t - angle c) in
  mkInterpolated
    (mkCar (x c + (x t - x c) * INTERPOLATION_FACTOR)
           (y c + (y t - y c) * INTERPOLATION_FACTOR)
           (vx c + (vx t - vx c) * INTERPOLATION_FACTOR)
           (vy c + (vy t - vy c) * INTERPOLATION_FACTOR)
           (angle c + angleDiff * INTERPOLATION_FACTOR)
           (angularVel c + (angularVel t - angularVel c) * INTERPOLATION_FACTOR)
           (width c) (height c) (color c)
           (health t) (isStatic c))
    t.

(** [interpolateOtherPlayers] over [otherPlayersRef.current]. *)
Definition interpolateOtherPlayers (m : gmap string InterpolatedCar)
    : gmap string InterpolatedCar :=
  fmap interpolate_entry m.

(** [p.id !== playerIdRef.current] ([playerIdRef.current] may be [null]). *)
Definition is_other (playerId : option string) (id : string) : bool :=
  match playerId with
  | Some me => negb (String.eqb id me)
  | None => true
  end.

(** The [forEach] body of the ["players"] case: [currentPlayers] is the map
    before the message, [newPlayers] the map being built. *)
Definition players_step (playerId : option string)
    (currentPlayers : gmap string InterpolatedCar)
    (newPlayers : gmap string InterpolatedCar) (p : PlayerState)
    : gmap string InterpolatedCar :=
  if is_other playerId (ps_id p) then
    let targetCar := playerStateToCar p in
    match currentPlayers !! ps_id p with
    | Some existing =>
        <[ps_id p := mkInterpolated (current existing) targetCar]> newPlayers
    | None => <[ps_id p := mkInterpolated targetCar targetCar]> newPlayers
    end
  else newPlayers.

(** The ["players"] case: [players] lists [Object.values(message.players)];
    the result replaces [otherPlayersRef.current]. *)
Definition on_players (playerId : option string) (players : list PlayerState)
    (currentPlayers : gmap string InterpolatedCar) : gmap string InterpolatedCar :=
  fold_left (players_step playerId currentPlayers) players ∅.

(** The ["player-left"] case. *)
Definition on_player_left (id : string) (m : gmap string InterpolatedCar)
    : gmap string InterpolatedCar :=
  delete id m.

(* ------------------------------------------------------------------ *)
(** ** Relay ([party/server.ts]) *)

Inductive ServerMessage :=
  | MPlayers (players : gmap string PlayerState)
  | MPlayerJoined (player : PlayerState)
  | MPlayerLeft (id : string)
  | MWelcome (id : string) (players : gmap string PlayerState).

(** [room.broadcast(message, without)] *)
Record Broadcast := mkBroadcast { b_msg : ServerMessage; b_without : list string }.

(** [{ ...state, id }] *)
Definition with_id (s : PlayerState) (id : string) : PlayerState :=
  mkPlayerState id (ps_x s) (ps_y s) (ps_vx s) (ps_vy s) (ps_angle s)
    (ps_angularVel s) (ps_color s) (ps_health s).

(** The ["update"] case of [onMessage]: the roster after the message and
    the broadcasts it sends. *)
Definition on_update (players : gmap string PlayerState) (sender : string)
    (state : PlayerState) : gmap string PlayerState * list Broadcast :=
  let players' :=
    match players !! sender with
    | Some _ => <[sender := with_id state sender]> players
    | None => players
    end in
  (players', [mkBroadcast (MPlayers players') []]).

(* ------------------------------------------------------------------ *)
(** ** The remaining physics utilities ([physics.ts]) *)

(** [updateTargetCarPhysics]: friction only; the heading vectors are taken
    from the angle before it is advanced. *)
Definition updateTargetCarPhysics (targetCar : Car) : Car :=
  let targetForwardX := cos (angle targetCar) in
  let targetForwardY := sin (angle targetCar) in
  let targetRightX := - targetForwardY in
  let targetRightY := targetForwardX in
  let targetForwardVel := vx targetCar * targetForwardX + vy targetCar * targetForwardY in
  let targetSidewaysVel := vx targetCar * targetRightX + vy targetCar * targetRightY in
  let targetNewForwardVel := targetForwardVel * 0.96 in
  let targetNewSidewaysVel := targetSidewaysVel * 0.9 in
  let nvx := targetForwardX * targetNewForwardVel + targetRightX * targetNewSidewaysVel in
  let nvy := targetForwardY * targetNewForwardVel + targetRightY * targetNewSidewaysVel in
  let w := angularVel targetCar * 0.92 in
  mkCar (x targetCar + nvx) (y targetCar + nvy) nvx nvy (angle targetCar + w) w
    (width targetCar) (height targetCar) (color targetCar) (health targetCar)
    (isStatic targetCar).

Definition CANVAS_WIDTH : R := 900.
Definition CANVAS_HEIGHT : R := 600.
Definition SCROLL_THRESHOLD : R := 0.35.

Record Camera := mkCamera { cam_x : R; cam_y : R }.

(** [updateCamera] *)
Definition updateCamera (camera : Camera) (playerCar : Car) : Camera :=
  let playerScreenX := x playerCar - cam_x camera in
  let playerScreenY := y playerCar - cam_y camera in
  let scrollMarginX := CANVAS_WIDTH * SCROLL_THRESHOLD in
  let scrollMarginY := CANVAS_HEIGHT * SCROLL_THRESHOLD in
  let cx :=
    if Rltb playerScreenX scrollMarginX then x playerCar - scrollMarginX
    else if Rgtb playerScreenX (CANVAS_WIDTH - scrollMarginX)
    then x playerCar - (CANVAS_WIDTH - scrollMarginX)
    else cam_x camera in
  let cy :=
    if Rltb playerScreenY scrollMarginY then y playerCar - scrollMarginY
    else if Rgtb playerScreenY (CANVAS_HEIGHT - scrollMarginY)
    then y playerCar - (CANVAS_HEIGHT - scrollMarginY)
    else cam_y camera in
  mkCamera (Rmax 0 (Rmin (WORLD_WIDTH - CANVAS_WIDTH) cx))
           (Rmax 0 (Rmin (WORLD_HEIGHT - CANVAS_HEIGHT) cy)).

(** The [map] callback of [updateDamagePopups]: [{ ...p, age: p.age + 1,
    y: p.y - 1 }]. *)
Definition age_popup (p : DamagePopup) : DamagePopup :=
  mkPopup (px p) (py p - 1) (damage p) (zone p) (age p + 1).

(** [updateDamagePopups] *)
Definition updateDamagePopups (popups : list DamagePopup) : list DamagePopup :=
  List.filter (fun p => Rltb (age p) 60) (List.map age_popup popups).

(** [k] calls of the [map] callback of [updateDamagePopups] at once. *)
Definition age_by (k : R) (p : DamagePopup) : DamagePopup :=
  mkPopup (px p) (py p - k) (damage p) (zone p) (age p + k).

(** [getTotalHealth] *)
Definition getTotalHealth (car : Car) : R :=
  (front (health car) + rear (health car) + left (health car) + right (health car)) / 4.

(* ------------------------------------------------------------------ *)
(** ** The remaining network utilities ([multiplayer.ts]) *)

(** [carToPlayerState] *)
Definition carToPlayerState (car : Car) (id : string) : PlayerState :=
  mkPlayerState id (x car) (y car) (vx car) (vy car) (angle car)
    (angularVel car) (color car) (health car).

(** The palette of [generateRandomColor]. *)
Definition colors : list string :=
  [ "#e74c3c"; "#3498db"; "#2ecc71"; "#f39c12"; "#9b59b6";
    "#1abc9c"; "#e91e63"; "#00bcd4"; "#ff5722"; "#8bc34a" ].

(** [generateRandomColor]; [rnd] is the [Math.random()] draw and [None]
    stands for [undefined] (an index outside the array). *)
Definition generateRandomColor (rnd : R) : option string :=
  let i := Int_part (rnd * INR (length colors)) in
  if Z.ltb i 0 then None else nth_error colors (Z.to_nat i).

(* ------------------------------------------------------------------ *)
(** ** The remaining relay handlers ([party/server.ts]) *)

(** A parsed [ClientMessage]. *)
Inductive ClientMessage :=
  | CUpdate (state : PlayerState)
  | CJoin (color : string)
  | CLeave.

(** The ["join"] case of [onMessage]; [r1], [r2], [r3] are the three
    [Math.random()] draws, in the order the object literal makes them. *)
Definition on_join (players : gmap string PlayerState) (sender color : string)
    (r1 r2 r3 : R) : gmap string PlayerState * list Broadcast :=
  let newPlayer :=
    mkPlayerState sender (1350 + r1 * 200 - 100) (900 + r2 * 200 - 100) 0 0
      (r3 * PI * 2) 0 color (mkHealth 100 100 100 100) in
  (<[sender := newPlayer]> players, [mkBroadcast (MPlayerJoined newPlayer) [sender]]).

(** The ["leave"] case of [onMessage]. *)
Definition on_leave (players : gmap string PlayerState) (sender : string)
    : gmap string PlayerState * list Broadcast :=
  (delete sender players, [mkBroadcast (MPlayerLeft sender) []]).

(** [onMessage]: [None] is a message [JSON.parse] rejects (the [catch]
    only logs), the roster is left as it is and nothing is sent. *)
Definition onMessage (players : gmap string PlayerState) (sender : string)
    (msg : option ClientMessage) (r1 r2 r3 : R)
    : gmap string PlayerState * list Broadcast :=
  match msg with
  | None => (players, [])
  | Some (CJoin color) => on_join players sender color r1 r2 r3
  | Some (CUpdate state) => on_update players sender state
  | Some CLeave => on_leave players sender
  end.

(** [onClose] *)
Definition onClose (players : gmap string PlayerState) (connId : string)
    : gmap string PlayerState * list Broadcast :=
  (delete connId players, [mkBroadcast (MPlayerLeft connId) []]).

(** [onConnect]: the welcome message sent to the new connection. *)
Definition onConnect (players : gmap string PlayerState) (connId : string)
    : ServerMessage :=
  MWelcome connId players.

(* ------------------------------------------------------------------ *)
(** ** The remaining client handlers ([useMultiplayer.ts]) *)

(** The [forEach] body of the ["welcome"] case. *)
Definition welcome_step (id : string) (players : gmap string InterpolatedCar)
    (p : PlayerState) : gmap string InterpolatedCar :=
  if negb (String.eqb (ps_id p) id) then
    let car := playerStateToCar p in
    <[ps_id p := mkInterpolated car car]> players
  else players.

(** The map the ["welcome"] case builds from [Object.values(message.players)]. *)
Definition on_welcome (id : string) (players : list PlayerState)
    : gmap string InterpolatedCar :=
  fold_left (welcome_step id) players ∅.

(** The ["player-joined"] case. *)
Definition on_player_joined (playerId : option string) (p : PlayerState)
    (m : gmap string InterpolatedCar) : gmap string InterpolatedCar :=
  if is_other playerId (ps_id p) then
    let car := playerStateToCar p in
    <[ps_id p := mkInterpolated car car]> m
  else m.

(** The state [socket.onmessage] works on: [playerIdRef.current] and
    [otherPlayersRef.current]. *)
Record ClientState := mkClient {
  cl_playerId : option string;
  cl_others : gmap string InterpolatedCar;
}.

(** [Object.values] of a received roster. *)
Definition roster_values (players : gmap string PlayerState) : list PlayerState :=
  List.map snd (map_to_list players).

(** [socket.onmessage] on a parsed message. *)
Definition client_onmessage (st : ClientState) (msg : ServerMessage) : ClientState :=
  match msg with
  | MWelcome id players => mkClient (Some id) (on_welcome id (roster_values players))
  | MPlayers players =>
      mkClient (cl_playerId st)
        (on_players (cl_playerId st) (roster_values players) (cl_others st))
  | MPlayerJoined p =>
      mkClient (cl_playerId st) (on_player_joined (cl_playerId st) p (cl_others st))
  | MPlayerLeft id => mkClient (cl_playerId st) (on_player_left id (cl_others st))
  end.

(* ------------------------------------------------------------------ *)
(** ** Spawning and joystick input (the game page, [src/unnamed/part_000]) *)

(** [getRandomSpawnPosition]; [r1], [r2], [r3] are the [Math.random()]
    draws. *)
Definition getRandomSpawnPosition (r1 r2 r3 : R) : R * R * R :=
  let padding := WALL_THICKNESS + 100 in
  let x0 := padding + r1 * (WORLD_WIDTH - padding * 2) in
  let y0 := padding + r2 * (WORLD_HEIGHT - padding * 2) in
  let a := r3 * PI * 2 in
  (x0, y0, a).

(** The car the page creates at the spawn position. *)
Definition spawn_car (r1 r2 r3 : R) : Car :=
  let '(x0, y0, a) := getRandomSpawnPosition r1 r2 r3 in
  createCar x0 y0 "#e74c3c" a false.

Definition deadzone : R := 0.15.

(** [applyDeadzone] *)
Definition applyDeadzone (value : R) : R :=
  let absValue := Rabs value in
  if Rltb absValue deadzone then 0 else (absValue - deadzone) / (1 - deadzone).

(** [applySteeringCurve]: [Math.pow(value, 1.5)].  It is only applied to
    results of [applyDeadzone], which are not negative; [Math.pow(0, 1.5)]
    is [0]. *)
Definition applySteeringCurve (value : R) : R :=
  if Rlt_dec 0 value then Rpower value 1.5 else 0.

(** [handleJoystickMove]: the new [inputRef.current]; [ex] and [ey] are
    [event.x] and [event.y], [None] standing for [null]. *)
Definition handleJoystickMove (ex ey : option R) : AnalogInput :=
  let x0 := match ex with Some v => v | None => 0 end in
  let y0 := match ey with Some v => v | None => 0 end in
  mkInput (if Rgtb y0 deadzone then applyDeadzone y0 else 0)
          (if Rltb y0 (- deadzone) then applyDeadzone y0 else 0)
          (if Rltb x0 (- deadzone) then applySteeringCurve (applyDeadzone x0) else 0)
          (if Rgtb x0 deadzone then applySteeringCurve (applyDeadzone x0) else 0).

(* ------------------------------------------------------------------ *)
(** ** Auxiliary definitions for the properties *)

(** The final speed clamp of [updatePlayerCarPhysics]. *)
Definition clamp_vel (a b : R) : R * R :=
  if Rgtb (sqrt (a * a + b * b)) MAX_SPEED
  then (a / sqrt (a * a + b * b) * MAX_SPEED, b / sqrt (a * a + b * b) * MAX_SPEED)
  else (a, b).

(** The relay's roster stores every player under its own id. *)
Definition ids_ok (players : gmap string PlayerState) : Prop :=
  map_Forall (fun k s => ps_id s = k) players.

(** The client's own id, once known, has no entry among the others. *)
Definition self_untracked (st : ClientState) : Prop :=
  match cl_playerId st with
  | Some me => cl_others st !! me = None
  | None => True
  end.

(** Two cars of the standard size, 10 apart on the x axis, the first
    moving towards the second. *)
Definition ex_car_a : Car :=
  mkCar 100 100 5 0 0 0 50 30 "#e74c3c" (mkHealth 100 100 100 100) false.
Definition ex_car_b : Car :=
  mkCar 110 100 0 0 0 0 50 30 "#3498db" (mkHealth 100 100 100 100) false.

(** A player of the relay's roster, and a roster holding only it. *)
Definition ex_player : PlayerState :=
  mkPlayerState "b" 500 500 0 0 0 0 "#3498db" (mkHealth 100 100 100 100).
Definition ex_roster : gmap string PlayerState := <["b" := ex_player]> ∅.

(* ================================================================== *)
(** * Properties *)

Lemma PI_gt_3 : 3 < PI.
Proof. pose proof PI2_3_2. lra. Qed.

(** ** Angle normalisation loops *)

Lemma wrap_down_spec (n : nat) (a : R) :
  a - 2 * PI * INR n <= PI ->
  wrap_down n a <= PI /\ (a <= PI -> wrap_down n a = a) /\
  (PI < a -> - PI < wrap_down n a) /\
  exists k : Z, wrap_down n a = a + 2 * PI * IZR k.
Proof.
  revert a; induction n as [|n IH]; intros a Hn; cbn [wrap_down] in *.
  - simpl in Hn. split; [lra|]. split; [auto|]. split; [lra|]. exists 0%Z. lra.
  - destruct (Rlt_dec PI a) as [Hlt|Hge].
    + rewrite S_INR in Hn.
      destruct (IH (a - 2 * PI)) as (H1 & H2 & H3 & k & Hk); [lra|].
      split; [exact H1|]. split; [lra|]. split.
      * intros _. destruct (Rle_dec (a - 2 * PI) PI) as [Hle|Hgt].
        -- rewrite (H2 Hle). pose proof PI_RGT_0. lra.
        -- apply H3. lra.
      * exists (k - 1)%Z. rewrite Hk, minus_IZR. lra.
    + split; [lra|]. split; [auto|]. split; [lra|]. exists 0%Z. lra.
Qed.

Lemma wrap_up_spec (n : nat) (a : R) :
  - PI <= a + 2 * PI * INR n -> a <= PI ->
  - PI <= wrap_up n a <= PI /\ (- PI <= a -> wrap_up n a = a) /\
  exists k : Z, wrap_up n a = a + 2 * PI * IZR k.
Proof.
  revert a; induction n as [|n IH]; intros a Hn Ha; cbn [wrap_up] in *.
  - simpl in Hn. split; [lra|]. split; [auto|]. exists 0%Z. lra.
  - destruct (Rlt_dec a (- PI)) as [Hlt|Hge].
    + rewrite S_INR in Hn. pose proof PI_RGT_0.
      destruct (IH (a + 2 * PI)) as (H1 & H2 & k & Hk); [lra|lra|].
      split; [exact H1|]. split; [lra|].
      exists (k + 1)%Z. rewrite Hk, plus_IZR. lra.
    + split; [lra|]. split; [auto|]. exists 0%Z. lra.
Qed.

(** The fuel exceeds [|a| / (2 PI)] rounds. *)
Lemma loop_fuel_enough (a : R) : Rabs a <= 2 * PI * INR (loop_fuel a).
Proof.
  unfold loop_fuel. pose proof PI_RGT_0 as Hpi.
  set (q := Rabs a / (2 * PI)).
  destruct (archimed q) as [Hup _].
  assert (Hq : 0 <= q) by (unfold q; apply Rle_mult_inv_pos; [apply Rabs_pos|lra]).
  assert (Hz : (0 <= up q)%Z) by (apply le_IZR; lra).
  rewrite S_INR, INR_IZR_INZ, Z2Nat.id by exact Hz.
  assert (Rabs a = 2 * PI * q) by (unfold q; field; lra).
  nra.
Qed.

(** The two loops of [getHitZone] leave an angle of [[-PI, PI]] that
    differs from the input by a whole number of turns, and leave an angle
    already in [[-PI, PI]] alone. *)
Lemma normalize_angle_spec (a : R) :
  - PI <= normalize_angle a <= PI /\
  (exists k : Z, normalize_angle a = a + 2 * PI * IZR k) /\
  (- PI <= a <= PI -> normalize_angle a = a).
Proof.
  unfold normalize_angle. pose proof (loop_fuel_enough a) as Hf.
  pose proof PI_RGT_0 as Hpi.
  set (N := loop_fuel a) in *.
  assert (HN : 0 <= INR N) by apply pos_INR.
  destruct (wrap_down_spec N a) as (D1 & D2 & D3 & k1 & Hk1).
  { pose proof (Rle_abs a). lra. }
  set (r0 := wrap_down N a) in *.
  assert (Hr0 : - PI <= r0 + 2 * PI * INR N).
  { destruct (Rle_dec a PI) as [Hle|Hgt].
    - rewrite (D2 Hle). pose proof (Rle_abs (- a)) as Hm. rewrite Rabs_Ropp in Hm. lra.
    - pose proof (D3 ltac:(lra)). nra. }
  destruct (wrap_up_spec N r0 Hr0 D1) as (U1 & U2 & k2 & Hk2).
  split; [exact U1|]. split.
  - exists (k1 + k2)%Z. rewrite Hk2, Hk1, plus_IZR. lra.
  - intros [Hlo Hhi]. rewrite U2; rewrite (D2 Hhi); lra.
Qed.

(** The bucketing of [getHitZone], as four half-open intervals. *)
Lemma zone_of_relative_spec (r : R) :
  (zone_of_relative r = ZFront <-> - PI / 4 <= r < PI / 4) /\
  (zone_of_relative r = ZRight <-> PI / 4 <= r < 3 * PI / 4) /\
  (zone_of_relative r = ZLeft <-> -3 * PI / 4 <= r < - PI / 4) /\
  (zone_of_relative r = ZRear <-> 3 * PI / 4 <= r \/ r < -3 * PI / 4).
Proof.
  pose proof PI_RGT_0.
  unfold zone_of_relative, in_range.
  repeat destruct (Rle_dec _ _); repeat destruct (Rlt_dec _ _);
    repeat split; intros; try discriminate; try lra; try reflexivity;
    try (destruct H0; lra).
Qed.

(** ** C2: hit-zone classification *)

(** C2: for every car and every finite collision angle, [getHitZone]
    normalises the angle relative to the heading into [[-PI, PI]] (leaving
    an angle already there unchanged, otherwise shifting it by whole turns)
    and returns exactly one zone: front on [[-PI/4, PI/4)], right on
    [[PI/4, 3PI/4)], left on [[-3PI/4, -PI/4)], rear on the rest
    ([[3PI/4, PI]] and [[-PI, -3PI/4)]); each boundary value opens the
    next bucket: [PI/4] is right, [3PI/4] rear, [-3PI/4] left, [-PI/4]
    front. *)
Theorem getHitZone_total_buckets (car : Car) (a : R) :
  let r := normalize_angle (a - angle car) in
  - PI <= r <= PI /\
  (exists k : Z, r = a - angle car + 2 * PI * IZR k) /\
  (- PI <= a - angle car <= PI -> r = a - angle car) /\
  getHitZone car a = zone_of_relative r /\
  (getHitZone car a = ZFront <-> - PI / 4 <= r < PI / 4) /\
  (getHitZone car a = ZRight <-> PI / 4 <= r < 3 * PI / 4) /\
  (getHitZone car a = ZLeft <-> -3 * PI / 4 <= r < - PI / 4) /\
  (getHitZone car a = ZRear <-> 3 * PI / 4 <= r \/ r < -3 * PI / 4) /\
  zone_of_relative (PI / 4) = ZRight /\ zone_of_relative (3 * PI / 4) = ZRear /\
  zone_of_relative (- PI / 4) = ZFront /\ zone_of_relative (-3 * PI / 4) = ZLeft.
Proof.
  intros r.
  destruct (normalize_angle_spec (a - angle car)) as (N1 & N2 & N3).
  pose proof PI_RGT_0 as Hpi.
  unfold getHitZone; fold r.
  destruct (zone_of_relative_spec r) as (Z1 & Z2 & Z3 & Z4).
  split; [exact N1|]. split; [exact N2|]. split; [exact N3|].
  split; [reflexivity|].
  split; [exact Z1|]. split; [exact Z2|]. split; [exact Z3|]. split; [exact Z4|].
  repeat split.
  - apply (proj2 (proj1 (proj2 (zone_of_relative_spec (PI / 4))))). lra.
  - apply (proj2 (proj2 (proj2 (proj2 (zone_of_relative_spec (3 * PI / 4)))))). lra.
  - apply (proj2 (proj1 (zone_of_relative_spec (- PI / 4)))). lra.
  - apply (proj2 (proj1 (proj2 (proj2 (zone_of_relative_spec (-3 * PI / 4)))))). lra.
Qed.

(** ** Helper tactics for the collision code *)

Ltac car_simpl :=
  cbn [health set_health set_zone get_zone set_pos set_vel set_ang
       cr_player cr_target cr_time cr_popups x y vx vy angle angularVel
       width height color isStatic fst snd damage zone negb orb] in *.

Ltac split_dec :=
  repeat match goal with
  | |- context [Rlt_dec ?a ?b] => destruct (Rlt_dec a b)
  | |- context [Rle_dec ?a ?b] => destruct (Rle_dec a b)
  | |- context [Req_dec_T ?a ?b] => destruct (Req_dec_T a b)
  end.

(** [Math.round] of a positive number is not negative. *)
Lemma js_round_nonneg (v : R) : 0 < v -> 0 <= js_round v.
Proof.
  intros Hv. unfold js_round, Int_part.
  destruct (archimed (v + / 2)) as [H1 _].
  assert (0 < IZR (up (v + / 2))) by lra.
  apply lt_0_IZR in H.
  assert (Hz : (0 <= up (v + / 2) - 1)%Z) by lia.
  apply IZR_le in Hz. exact Hz.
Qed.

(** ** C1: damage of a vehicle-vehicle collision *)

(** C1: when [handleCarCollision] applies damage (the cars overlap at a
    non-zero distance, at least 150 ms have passed since the last damaging
    hit and the impact speed [s] exceeds 2), the damage is
    [D = round((s - 2) * 3)]; the target's zone (the angle plus [PI]) loses
    [D], the initiator's zone (the angle itself) loses exactly [D * 0.15],
    both clamped at 0; the returned time is [now] and one popup is pushed
    carrying [D] and the target's zone. *)
Theorem handleCarCollision_damage (p t : Car) (last now rnd1 rnd2 : R)
    (pops : list DamagePopup) :
  let dx := x t - x p in
  let dy := y t - y p in
  let distance := sqrt (dx * dx + dy * dy) in
  let nx := dx / distance in
  let ny := dy / distance in
  let s := Rabs ((vx p - vx t) * nx + (vy p - vy t) * ny) in
  let ca := js_atan2 dy dx in
  let pz := getHitZone p ca in
  let tz := getHitZone t (ca + PI) in
  let D := js_round ((s - 2) * 3) in
  0 < distance < (width p + width t) / 2 * 0.85 ->
  150 <= now - last ->
  2 < s ->
  let r := handleCarCollision p t last pops rnd1 rnd2 now in
  health (cr_player r) =
    set_zone (health p) pz (Rmax 0 (get_zone (health p) pz - D * 0.15)) /\
  health (cr_target r) =
    set_zone (health t) tz (Rmax 0 (get_zone (health t) tz - D)) /\
  cr_time r = now /\
  exists popup, cr_popups r = pops ++ [popup] /\ damage popup = D /\ zone popup = tz.
Proof.
  intros dx dy distance nx ny s ca pz tz D Hd Ht Hs r.
  subst r D tz pz ca s ny nx distance dx dy.
  unfold handleCarCollision, checkCarCollision, Rgtb, Rltb, Reqb,
    getHitZone, MIN_IMPACT_FOR_DAMAGE, DAMAGE_MULTIPLIER, ATTACKER_DAMAGE_RATIO.
  car_simpl.
  destruct (Rlt_dec _ _) as [_|Hc]; [|lra]. cbn [negb orb].
  destruct (Req_dec_T _ _) as [Hc|_]; [lra|].
  destruct (Rlt_dec 0 _).
  - car_simpl. destruct (Rlt_dec (now - last) 150); [lra|].
    destruct (Rlt_dec 2 _) as [_|Hc]; [|lra].
    car_simpl. split; [reflexivity|]. split; [reflexivity|].
    split; [reflexivity|]. eexists; repeat split.
  - car_simpl. destruct (Rlt_dec (now - last) 150); [lra|].
    destruct (Rlt_dec 2 _) as [_|Hc]; [|lra].
    car_simpl. split; [reflexivity|]. split; [reflexivity|].
    split; [reflexivity|]. eexists; repeat split.
Qed.

(** The cars of the scenario of the spec: A at (0, 0) heading 0 with
    [vx = 5]; B at (10, 0), at rest. *)
Definition ex_attacker : Car :=
  mkCar 0 0 5 0 0 0 50 30 "#e74c3c" (mkHealth 100 100 100 100) false.
Definition ex_target : Car :=
  mkCar 10 0 0 0 0 0 50 30 "#3498db" (mkHealth 100 100 100 100) true.

Lemma sqrt_ex_distance : sqrt ((10 - 0) * (10 - 0) + (0 - 0) * (0 - 0)) = 10.
Proof.
  replace ((10 - 0) * (10 - 0) + (0 - 0) * (0 - 0)) with (10 * 10) by ring.
  apply sqrt_square; lra.
Qed.

Lemma js_round_9_5 : js_round ((5 - 2) * 3) = 9.
Proof.
  unfold js_round. f_equal. symmetry. apply Int_part_spec. lra.
Qed.

Lemma handleCarCollision_damage_witness :
  exists popup,
    cr_popups (handleCarCollision ex_attacker ex_target 0 [] (1/2) (1/2) 1000)
      = [popup] /\ damage popup = js_round ((5 - 2) * 3).
Proof.
  pose proof (handleCarCollision_damage ex_attacker ex_target 0 1000 (1/2) (1/2) [])
    as H.
  cbv zeta in H. unfold ex_attacker, ex_target in *. cbn [x y vx vy width] in *.
  rewrite sqrt_ex_distance in H.
  replace (Rabs ((5 - 0) * ((10 - 0) / 10) + (0 - 0) * ((0 - 0) / 10))) with 5 in H
    by (rewrite Rabs_pos_eq; field_simplify; lra).
  destruct H as (_ & _ & _ & popup & Hp & Hd & _); [lra|lra|lra|].
  exists popup. split; [exact Hp|exact Hd].
Defined.

(** ** C7 and C8: collision of overlapping cars at rest; the static flag *)

(** A at (0, 0) at rest, next to B of [ex_target] (at rest, static). *)
Definition ex_rest : Car :=
  mkCar 0 0 0 0 0 0 50 30 "#2ecc71" (mkHealth 100 100 100 100) false.

(** [c] with its [isStatic] flag set to [b]. *)
Definition with_static (c : Car) (b : bool) : Car :=
  mkCar (x c) (y c) (vx c) (vy c) (angle c) (angularVel c) (width c) (height c)
    (color c) (health c) b.

(** Two overlapping cars at rest are pushed apart: A by 20.7 to the left,
    B by 13.8 to the right. *)
Lemma ex_rest_separation (last now rnd1 rnd2 : R) (pops : list DamagePopup) :
  let r := handleCarCollision ex_rest ex_target last pops rnd1 rnd2 now in
  x (cr_player r) = - (207 / 10) /\ x (cr_target r) = 238 / 10.
Proof.
  unfold handleCarCollision, checkCarCollision, Rgtb, Rltb, Reqb, ex_rest, ex_target.
  car_simpl. rewrite sqrt_ex_distance.
  split_dec; car_simpl; split; field_simplify; lra.
Qed.

(** C7 (counterexample): two overlapping cars at rest are not left alone:
    the initiator at (0, 0) is moved to [x = -20.7]. *)
Lemma handleCarCollision_at_rest_moves :
  vx ex_rest = 0 /\ vy ex_rest = 0 /\ vx ex_target = 0 /\ vy ex_target = 0 /\
  x (cr_player (handleCarCollision ex_rest ex_target 0 [] (1/2) (1/2) 1000))
    <> x ex_rest.
Proof.
  destruct (ex_rest_separation 0 1000 (1/2) (1/2) []) as [Hx _].
  cbv zeta in Hx. rewrite Hx. unfold ex_rest, ex_target. cbn. repeat split; lra.
Qed.

(** C7 (amended): with both cars at rest, [handleCarCollision] applies no
    damage and changes no velocity: the returned time, the popups, both
    health records and all four velocity components are unchanged.  Unless
    the centres are at a distance [d] in [(0, minDist)], nothing at all
    changes.  When they are (the cars overlap), the cars are pushed apart
    along the centre line, the initiator by [0.6 * (minDist - d + 2)] and
    the other car by [0.4 * (minDist - d + 2)], and receive the random
    angular kicks [(rnd1 - 0.5) * 0.1] and [(rnd2 - 0.5) * 0.12]; nothing
    else about them changes. *)
Theorem handleCarCollision_at_rest (p t : Car) (last now rnd1 rnd2 : R)
    (pops : list DamagePopup) :
  vx p = 0 -> vy p = 0 -> vx t = 0 -> vy t = 0 ->
  let r := handleCarCollision p t last pops rnd1 rnd2 now in
  let d := sqrt ((x t - x p) * (x t - x p) + (y t - y p) * (y t - y p)) in
  let minDist := (width p + width t) / 2 * 0.85 in
  cr_time r = last /\ cr_popups r = pops /\
  health (cr_player r) = health p /\ health (cr_target r) = health t /\
  vx (cr_player r) = 0 /\ vy (cr_player r) = 0 /\
  vx (cr_target r) = 0 /\ vy (cr_target r) = 0 /\
  (~ (0 < d < minDist) -> cr_player r = p /\ cr_target r = t) /\
  (0 < d < minDist ->
   cr_player r =
     mkCar (x p - (x t - x p) / d * (minDist - d + 2) * 0.6)
           (y p - (y t - y p) / d * (minDist - d + 2) * 0.6)
           (vx p) (vy p) (angle p) (angularVel p + (rnd1 - 0.5) * 0.1)
           (width p) (height p) (color p) (health p) (isStatic p) /\
   cr_target r =
     mkCar (x t + (x t - x p) / d * (minDist - d + 2) * 0.4)
           (y t + (y t - y p) / d * (minDist - d + 2) * 0.4)
           (vx t) (vy t) (angle t) (angularVel t + (rnd2 - 0.5) * 0.12)
           (width t) (height t) (color t) (health t) (isStatic t)).
Proof.
  intros Hpx Hpy Htx Hty r d minDist. subst r d minDist.
  unfold handleCarCollision, checkCarCollision, Rgtb, Rltb, Reqb,
    MIN_IMPACT_FOR_DAMAGE.
  car_simpl. rewrite Hpx, Hpy, Htx, Hty.
  repeat match goal with |- context [Rabs ?e] =>
    replace e with 0 by ring; rewrite Rabs_R0 end.
  pose proof (sqrt_pos ((x t - x p) * (x t - x p) + (y t - y p) * (y t - y p))).
  split_dec; car_simpl;
    repeat split; try reflexivity; try ring; try lra;
    try (intros; exfalso; lra);
    try (intros Hn; exfalso; apply Hn; split; lra);
    intros; unfold set_ang, set_vel, set_pos;
    cbn [x y vx vy angle angularVel width height color health isStatic];
    f_equal; lra.
Qed.

Lemma handleCarCollision_at_rest_witness :
  cr_popups (handleCarCollision ex_rest ex_target 0 [] (1/2) (1/2) 1000) = [] /\
  angularVel (cr_player (handleCarCollision ex_rest ex_target 0 [] (1/2) (1/2) 1000))
    = angularVel ex_rest.
Proof.
  pose proof (handleCarCollision_at_rest ex_rest ex_target 0 1000 (1/2) (1/2) []
                eq_refl eq_refl eq_refl eq_refl) as H.
  cbv zeta in H. destruct H as (_ & Hp & _ & _ & _ & _ & _ & _ & _ & Hov).
  split; [exact Hp|].
  rewrite (proj1 (Hov ltac:(unfold ex_rest, ex_target; cbn [x y width];
                            rewrite sqrt_ex_distance; lra))).
  cbn [angularVel]. lra.
Defined.

(** C8 (counterexample): a static car hit by a car at rest next to it is
    moved by [handleCarCollision]: B, static, goes from [x = 10] to
    [x = 23.8]. *)
Lemma handleCarCollision_moves_static :
  isStatic ex_target = true /\
  x (cr_target (handleCarCollision ex_rest ex_target 0 [] (1/2) (1/2) 1000))
    <> x ex_target.
Proof.
  destruct (ex_rest_separation 0 1000 (1/2) (1/2) []) as [_ Hx].
  cbv zeta in Hx. rewrite Hx. unfold ex_target. cbn. split; [reflexivity|lra].
Qed.

Lemma wall_corner_step_static (c : Car) (b f : bool) (p : Point) :
  wall_corner_step (with_static c b, f) p =
  (with_static (fst (wall_corner_step (c, f) p)) b, snd (wall_corner_step (c, f) p)).
Proof.
  unfold wall_corner_step, Rltb, Rgtb, with_static. car_simpl.
  split_dec; car_simpl; reflexivity.
Qed.

Lemma fold_wall_static (l : list Point) (c : Car) (b f : bool) :
  fold_left wall_corner_step l (with_static c b, f) =
  (with_static (fst (fold_left wall_corner_step l (c, f))) b,
   snd (fold_left wall_corner_step l (c, f))).
Proof.
  revert c f; induction l as [|p l IH]; intros c f; [reflexivity|].
  cbn [fold_left]. rewrite wall_corner_step_static.
  destruct (wall_corner_step (c, f) p) as [c' f']. apply IH.
Qed.

Lemma getCarCorners_static (c : Car) (b : bool) :
  getCarCorners (with_static c b) = getCarCorners c.
Proof. reflexivity. Qed.

(** C8 (amended): [isStatic] is never read.  [handleCarCollision] and
    [handleWallCollisions] (and the integrator) compute the same result
    whatever the flags of the cars: a static car is moved, bounced and
    kicked like any other. *)
Theorem isStatic_ignored (p t c : Car) (bp bt bc : bool) (input : AnalogInput)
    (last now rnd1 rnd2 rnd : R) (pops : list DamagePopup) :
  (let r := handleCarCollision p t last pops rnd1 rnd2 now in
   handleCarCollision (with_static p bp) (with_static t bt) last pops rnd1 rnd2 now =
   mkCollisionResult (with_static (cr_player r) bp) (with_static (cr_target r) bt)
     (cr_time r) (cr_popups r)) /\
  handleWallCollisions (with_static c bc) rnd =
    (with_static (fst (handleWallCollisions c rnd)) bc,
     snd (handleWallCollisions c rnd)) /\
  updatePlayerCarPhysics (with_static c bc) input =
    (with_static (fst (updatePlayerCarPhysics c input)) bc,
     snd (updatePlayerCarPhysics c input)).
Proof.
  split; [|split].
  - cbv zeta. unfold handleCarCollision, checkCarCollision, Rgtb, Rltb, Reqb,
      getHitZone.
    unfold with_static; car_simpl.
    split_dec; car_simpl; reflexivity.
  - unfold handleWallCollisions. rewrite getCarCorners_static, fold_wall_static.
    destruct (fold_left wall_corner_step (getCarCorners c) (c, false)) as [c' f].
    car_simpl. destruct f; reflexivity.
  - unfold updatePlayerCarPhysics. unfold with_static; car_simpl.
    repeat match goal with
    | |- context [match ?e with pair _ _ => _ end] => destruct e
    end.
    car_simpl. reflexivity.
Qed.

(** ** C4: roster snapshots on the client *)

(** What [players_step] stores for a payload entry [p]. *)
Definition roster_entry (m : gmap string InterpolatedCar) (p : PlayerState)
    : InterpolatedCar :=
  match m !! ps_id p with
  | Some existing => mkInterpolated (current existing) (playerStateToCar p)
  | None => mkInterpolated (playerStateToCar p) (playerStateToCar p)
  end.

Lemma fold_players_lookup (pid : option string) (m : gmap string InterpolatedCar)
    (l : list PlayerState) (acc : gmap string InterpolatedCar) (id : string) :
  (fold_left (players_step pid m) l acc !! id = None <->
     acc !! id = None /\ ~ (is_other pid id = true /\ exists p, In p l /\ ps_id p = id)) /\
  (forall e, fold_left (players_step pid m) l acc !! id = Some e ->
     acc !! id = Some e \/
     exists p, In p l /\ ps_id p = id /\ is_other pid id = true /\ e = roster_entry m p).
Proof.
  revert acc; induction l as [|p l IH]; intros acc; cbn [fold_left].
  - split; [|auto]. split; [intros H; split; [exact H|]; intros (_ & q & [] & _)|tauto].
  - destruct (IH (players_step pid m acc p)) as [IH1 IH2].
    assert (Hstep : players_step pid m acc p =
      if is_other pid (ps_id p) then <[ps_id p := roster_entry m p]> acc else acc).
    { unfold players_step, roster_entry. destruct (is_other pid (ps_id p)); [|reflexivity].
      destruct (m !! ps_id p); reflexivity. }
    rewrite Hstep in IH1, IH2 |- *. split.
    + rewrite IH1. destruct (is_other pid (ps_id p)) eqn:Ho.
      * destruct (decide (ps_id p = id)) as [<-|Hne].
        -- rewrite lookup_insert_eq. split; [intros [H _]; discriminate|].
           intros [_ H]. exfalso. apply H. split; [exact Ho|]. exists p. split; [left|]; auto.
        -- rewrite lookup_insert_ne by exact Hne. split.
           ++ intros [H1 H2]. split; [exact H1|]. intros (Hi & q & [<-|Hq] & Hqid);
                [congruence|]. apply H2. split; [exact Hi|]. exists q. auto.
           ++ intros [H1 H2]. split; [exact H1|]. intros (Hi & q & Hq & Hqid).
              apply H2. split; [exact Hi|]. exists q. split; [right|]; auto.
      * split.
        -- intros [H1 H2]. split; [exact H1|]. intros (Hi & q & [<-|Hq] & Hqid);
             [subst; congruence|]. apply H2. split; [exact Hi|]. exists q. auto.
        -- intros [H1 H2]. split; [exact H1|]. intros (Hi & q & Hq & Hqid).
           apply H2. split; [exact Hi|]. exists q. split; [right|]; auto.
    + intros e He. destruct (IH2 e He) as [Ha|(q & Hq & Hqid & Ho & Hqe)].
      * destruct (is_other pid (ps_id p)) eqn:Ho; [|left; exact Ha].
        destruct (decide (ps_id p = id)) as [<-|Hne].
        -- rewrite lookup_insert_eq in Ha. injection Ha as <-. right.
           exists p. split; [left; reflexivity|]. auto.
        -- rewrite lookup_insert_ne in Ha by exact Hne. left; exact Ha.
      * right. exists q. split; [right; exact Hq|]. auto.
Qed.

(** A tracked remote car and a state of a fresh id, used as inputs below. *)
Definition ex_state : PlayerState :=
  mkPlayerState "conn-b" 1350 900 0 0 0 0 "#3498db" (mkHealth 100 100 100 100).
Definition ex_tracked : gmap string InterpolatedCar :=
  {[ "conn-b" := mkInterpolated (playerStateToCar ex_state) (playerStateToCar ex_state) ]}.

(** C4 (counterexample): a tracked id missing from a ["players"] update is
    dropped: after an update that lists nobody, ["conn-b"] is gone. *)
Lemma on_players_drops_missing :
  ex_tracked !! "conn-b" <> None /\
  on_players (Some "conn-a") [] ex_tracked !! "conn-b" = None.
Proof.
  unfold ex_tracked, on_players. cbn [fold_left].
  rewrite lookup_singleton_eq, lookup_empty. split; [discriminate|reflexivity].
Qed.

(** C4 (amended): a ["players"] update rebuilds the map from the update
    alone.  An id is tracked afterwards exactly when the update lists it
    and it is not the local player's id; a listed id that was tracked keeps
    its [current] record and gets the new target, a new one starts with
    [current = target]; a tracked id missing from the update is dropped.
    A ["player-left"] event deletes its id and nothing else. *)
Theorem on_players_rebuilds (pid : option string) (players : list PlayerState)
    (m : gmap string InterpolatedCar) (id : string) :
  (on_players pid players m !! id = None <->
     ~ (is_other pid id = true /\ exists p, In p players /\ ps_id p = id)) /\
  (forall e, on_players pid players m !! id = Some e ->
     exists p, In p players /\ ps_id p = id /\
       target e = playerStateToCar p /\
       current e = match m !! id with
                   | Some old => current old
                   | None => playerStateToCar p
                   end) /\
  on_player_left id m !! id = None /\
  (forall id', id' <> id -> on_player_left id m !! id' = m !! id').
Proof.
  destruct (fold_players_lookup pid m players ∅ id) as [H1 H2].
  unfold on_players, on_player_left. split; [|split; [|split]].
  - rewrite H1, lookup_empty. tauto.
  - intros e He. destruct (H2 e He) as [Ha|(p & Hp & Hid & _ & ->)].
    + rewrite lookup_empty in Ha. discriminate.
    + exists p. split; [exact Hp|]. split; [exact Hid|].
      unfold roster_entry. rewrite Hid.
      destruct (m !! id); split; reflexivity.
  - apply lookup_delete_eq.
  - intros id' Hne. apply lookup_delete_ne. congruence.
Qed.

(** ** C9: the relay's handling of ["update"] *)

(** C9 (counterexample): an ["update"] from a connection with no roster
    entry (it never sent ["join"]) stores nothing. *)
Lemma on_update_without_entry :
  fst (on_update ∅ "conn-a" ex_state) !! "conn-a" = None /\
  Some (with_id ex_state "conn-a") <> None.
Proof.
  unfold on_update. rewrite lookup_empty. cbn [fst].
  rewrite lookup_empty. split; [reflexivity|discriminate].
Qed.

(** C9 (amended): on ["update"], if the sender has a roster entry it is
    overwritten by the payload re-stamped with the sender's id (the id in
    the payload is ignored); if it has none the roster is unchanged; the
    entry of every other id is unchanged; and the whole roster is broadcast
    to everyone. *)
Theorem on_update_spec (players : gmap string PlayerState) (sender : string)
    (state : PlayerState) :
  let '(players', out) := on_update players sender state in
  out = [mkBroadcast (MPlayers players') []] /\
  (players !! sender <> None -> players' !! sender = Some (with_id state sender)) /\
  (players !! sender = None -> players' = players) /\
  (forall c, c <> sender -> players' !! c = players !! c).
Proof.
  unfold on_update. destruct (players !! sender) as [old|] eqn:E.
  - split; [reflexivity|]. split; [intros _; apply lookup_insert_eq|].
    split; [discriminate|].
    intros c Hc. apply lookup_insert_ne. congruence.
  - split; [reflexivity|]. split; [congruence|]. split; reflexivity.
Qed.

(** ** C10: health is copied, not interpolated *)

(** [interpolate_entry] does not read the health of [current]. *)
Lemma interpolate_entry_health_irrelevant (c t : Car) (h : Health) :
  interpolate_entry (mkInterpolated (set_health c h) t) =
  interpolate_entry (mkInterpolated c t).
Proof. reflexivity. Qed.

(** The write of [handleCarCollision] into the health of a remote car's
    [current] record. *)
Definition write_current_health (h : Health) (e : InterpolatedCar) : InterpolatedCar :=
  mkInterpolated (set_health (current e) h) (target e).

(** C10: right after [interpolateOtherPlayers], every tracked car has
    [current.health = target.health]; and whatever health was written into
    the [current] record of any tracked car before the step, the step gives
    the same map, so the written value is discarded. *)
Theorem interpolate_copies_health (m : gmap string InterpolatedCar) (id : string)
    (h : Health) :
  (forall id' e, interpolateOtherPlayers m !! id' = Some e ->
     health (current e) = health (target e)) /\
  interpolateOtherPlayers (alter (write_current_health h) id m) =
  interpolateOtherPlayers m.
Proof.
  unfold interpolateOtherPlayers. split.
  - intros id' e He. rewrite lookup_fmap in He.
    destruct (m !! id') as [e0|]; [|discriminate].
    cbn in He. injection He as <-. reflexivity.
  - apply map_eq. intros j. rewrite !lookup_fmap.
    destruct (decide (id = j)) as [<-|Hne].
    + rewrite lookup_alter_eq. destruct (m !! id) as [e|]; [|reflexivity].
      destruct e as [c t]. unfold write_current_health. cbn [current target].
      cbn [fmap option_fmap option_map].
      rewrite interpolate_entry_health_irrelevant. reflexivity.
    + rewrite lookup_alter_ne by exact Hne. reflexivity.
Qed.

(** ** C5: convergence of the interpolation *)

(** The fields blended linearly by [interpolateOtherPlayers]. *)
Definition linear_fields : list (Car -> R) := [x; y; vx; vy; angularVel].

(** [n] interpolation steps with no network message in between. *)
Definition interp_iter (n : nat) (p : InterpolatedCar) : InterpolatedCar :=
  Nat.iter n interpolate_entry p.

(** The loops leave the one representative of [a] in [(-PI, PI)]. *)
Lemma normalize_angle_unique (a v : R) (k : Z) :
  - PI < v < PI -> a = v + 2 * PI * IZR k -> normalize_angle a = v.
Proof.
  intros Hv Ha. destruct (normalize_angle_spec a) as (N1 & (k1 & Hk1) & _).
  pose proof PI_RGT_0 as Hpi.
  set (j := (k + k1)%Z).
  assert (Hr : normalize_angle a = v + 2 * PI * IZR j)
    by (unfold j; rewrite Hk1, Ha, plus_IZR; ring).
  rewrite Hr in N1.
  assert (Hj1 : IZR j < 1).
  { apply (Rmult_lt_reg_l (2 * PI)); lra. }
  assert (Hj2 : -1 < IZR j).
  { apply (Rmult_lt_reg_l (2 * PI)); lra. }
  apply lt_IZR in Hj1. apply (lt_IZR (-1)) in Hj2.
  assert (j = 0%Z) as -> by lia. rewrite Hr. lra.
Qed.

Lemma interp_iter_S (n : nat) (p : InterpolatedCar) :
  interp_iter (S n) p = interpolate_entry (interp_iter n p).
Proof. reflexivity. Qed.

Lemma interp_iter_target (n : nat) (p : InterpolatedCar) :
  target (interp_iter n p) = target p.
Proof.
  induction n as [|n IH]; [reflexivity|].
  unfold interp_iter in *. cbn [Nat.iter]. exact IH.
Qed.

Lemma interp_linear_step (p : InterpolatedCar) (f : Car -> R) :
  In f linear_fields ->
  f (current (interpolate_entry p)) =
  f (current p) + INTERPOLATION_FACTOR * (f (target p) - f (current p)).
Proof.
  intros Hf. cbn in Hf.
  destruct Hf as [<-|[<-|[<-|[<-|[<-|[]]]]]]; cbn; ring.
Qed.

Lemma interp_linear_iter (n : nat) (p : InterpolatedCar) (f : Car -> R) :
  In f linear_fields ->
  f (current (interp_iter n p)) - f (target p) =
  (7 / 10) ^ n * (f (current p) - f (target p)).
Proof.
  intros Hf. induction n as [|n IH]; [cbn; ring|].
  rewrite interp_iter_S, (interp_linear_step _ f Hf), interp_iter_target.
  unfold INTERPOLATION_FACTOR. cbn [pow].
  replace (f (current (interp_iter n p)) +
           0.3 * (f (target p) - f (current (interp_iter n p))) - f (target p))
    with (7 / 10 * (f (current (interp_iter n p)) - f (target p))) by lra.
  rewrite IH. ring.
Qed.

Lemma interp_angle_step (p : InterpolatedCar) :
  normalize_angle (angle (target (interpolate_entry p)) -
                   angle (current (interpolate_entry p))) =
  7 / 10 * normalize_angle (angle (target p) - angle (current p)).
Proof.
  destruct (normalize_angle_spec (angle (target p) - angle (current p)))
    as (N1 & (k & Hk) & _).
  pose proof PI_RGT_0.
  apply (normalize_angle_unique _ _ (- k)).
  - lra.
  - cbn [interpolate_entry target current angle]. unfold INTERPOLATION_FACTOR.
    rewrite opp_IZR.
    set (w := normalize_angle (angle (target p) - angle (current p))) in *.
    lra.
Qed.

Lemma interp_angle_iter (n : nat) (p : InterpolatedCar) :
  normalize_angle (angle (target p) - angle (current (interp_iter n p))) =
  (7 / 10) ^ n * normalize_angle (angle (target p) - angle (current p)).
Proof.
  induction n as [|n IH]; [cbn; ring|].
  rewrite interp_iter_S.
  rewrite <- (interp_iter_target (S n) p) at 1. rewrite interp_iter_S.
  rewrite interp_angle_step, interp_iter_target, IH. cbn [pow]. ring.
Qed.

(** A remote car rendered at heading 0 whose last snapshot has heading 6
    (more than [PI] away, so the shortest path goes the other way). *)
Definition ex_heading_pair : InterpolatedCar :=
  mkInterpolated
    (mkCar 0 0 0 0 0 0 50 30 "#3498db" (mkHealth 100 100 100 100) false)
    (mkCar 0 0 0 0 6 0 50 30 "#3498db" (mkHealth 100 100 100 100) false).

(** C5 (counterexample): for the heading, one step can increase
    [|current - target|]: from [|0 - 6| = 6] to [4.2 + 0.6 PI > 6]. *)
Lemma interpolate_heading_distance_grows :
  let p := ex_heading_pair in
  Rabs (angle (current p) - angle (target p)) <> 0 /\
  Rabs (angle (current (interpolate_entry p)) - angle (target (interpolate_entry p)))
    > Rabs (angle (current p) - angle (target p)).
Proof.
  cbv zeta. pose proof PI_gt_3. pose proof PI_4.
  assert (Hn : normalize_angle (6 - 0) = 6 - 2 * PI).
  { apply (normalize_angle_unique _ _ 1); [lra|]. cbn. ring. }
  unfold ex_heading_pair, interpolate_entry. cbn [current target angle].
  rewrite Hn. unfold INTERPOLATION_FACTOR.
  rewrite (Rabs_left (0 - 6)) by lra.
  rewrite Rabs_left by lra. split; lra.
Qed.

(** C5 (amended): one step sets each of [x], [y], [vx], [vy] and
    [angularVel] of [current] to exactly [c0 + 0.3 (t - c0)], and the
    heading to [a0 + 0.3 d], where [d] is [target - a0] wrapped into
    [[-PI, PI]].  With the target held constant, after [n] steps the
    distance [|current - target|] of each linear field, and the wrapped
    heading distance [|d|], are [0.7^n] times the initial ones: they
    decrease strictly at every step while non-zero, never reach 0, and
    tend to 0.  (The raw heading difference need not decrease.) *)
Theorem interpolate_converges (p : InterpolatedCar) (f : Car -> R) (n : nat) :
  In f linear_fields ->
  f (current (interpolate_entry p)) =
    f (current p) + 0.3 * (f (target p) - f (current p)) /\
  angle (current (interpolate_entry p)) =
    angle (current p) + 0.3 * normalize_angle (angle (target p) - angle (current p)) /\
  target (interp_iter n p) = target p /\
  Rabs (f (current (interp_iter n p)) - f (target p)) =
    (7 / 10) ^ n * Rabs (f (current p) - f (target p)) /\
  Rabs (normalize_angle (angle (target p) - angle (current (interp_iter n p)))) =
    (7 / 10) ^ n * Rabs (normalize_angle (angle (target p) - angle (current p))) /\
  (f (current p) <> f (target p) ->
     0 < Rabs (f (current (interp_iter (S n) p)) - f (target p)) <
         Rabs (f (current (interp_iter n p)) - f (target p))) /\
  (forall eps, 0 < eps -> exists N, forall k, (N <= k)%nat ->
     Rabs (f (current (interp_iter k p)) - f (target p)) < eps).
Proof.
  intros Hf.
  assert (Hd : forall k, Rabs (f (current (interp_iter k p)) - f (target p)) =
                 (7 / 10) ^ k * Rabs (f (current p) - f (target p))).
  { intros k. rewrite interp_linear_iter by exact Hf.
    rewrite Rabs_mult, (Rabs_pos_eq ((7 / 10) ^ k)); [reflexivity|].
    apply pow_le. lra. }
  split; [rewrite (interp_linear_step p f Hf); reflexivity|].
  split; [cbn [interpolate_entry current angle]; unfold INTERPOLATION_FACTOR; ring|].
  split; [apply interp_iter_target|].
  split; [apply Hd|].
  split.
  { rewrite interp_angle_iter, Rabs_mult, (Rabs_pos_eq ((7 / 10) ^ n));
      [reflexivity|apply pow_le; lra]. }
  split.
  - intros Hne. rewrite !Hd. cbn [pow].
    assert (0 < Rabs (f (current p) - f (target p))).
    { apply Rabs_pos_lt. intros E. apply Hne. lra. }
    assert (0 < (7 / 10) ^ n) by (apply pow_lt; lra).
    split; nra.
  - intros eps Heps.
    destruct (Req_dec_T (f (current p) - f (target p)) 0) as [E|E].
    + exists O. intros k _. rewrite Hd, E, Rabs_R0. lra.
    + assert (Ha : 0 < Rabs (f (current p) - f (target p))) by (apply Rabs_pos_lt; exact E).
      destruct (pow_lt_1_zero (7 / 10) ltac:(rewrite Rabs_pos_eq; lra)
                  (eps / Rabs (f (current p) - f (target p))))
        as [N HN]; [apply Rdiv_pos_pos; lra|].
      exists N. intros k Hk. rewrite Hd.
      specialize (HN k Hk). rewrite Rabs_pos_eq in HN by (apply pow_le; lra).
      apply (Rmult_lt_compat_r (Rabs (f (current p) - f (target p)))) in HN; [|exact Ha].
      unfold Rdiv in HN. rewrite Rmult_assoc, Rinv_l in HN by lra. lra.
Qed.

Lemma interpolate_converges_witness :
  In x linear_fields /\
  Rabs (x (current (interp_iter 1 ex_heading_pair)) - x (target ex_heading_pair)) =
    (7 / 10) ^ 1 * Rabs (x (current ex_heading_pair) - x (target ex_heading_pair)).
Proof.
  split; [left; reflexivity|].
  apply (interpolate_converges ex_heading_pair x 1). left; reflexivity.
Defined.

(** ** C3: bounds of the health zones *)

Definition zone_ok (v : R) : Prop := 0 <= v <= 100.

Definition health_ok (h : Health) : Prop :=
  zone_ok (front h) /\ zone_ok (rear h) /\ zone_ok (left h) /\ zone_ok (right h).

(** Both health records of a remote-car entry are in range. *)
Definition entry_ok (e : InterpolatedCar) : Prop :=
  health_ok (health (current e)) /\ health_ok (health (target e)).

Lemma health_ok_clamp (h : Health) (z : HitZone) (d : R) :
  health_ok h -> 0 <= d -> health_ok (set_zone h z (Rmax 0 (get_zone h z - d))).
Proof.
  intros (H1 & H2 & H3 & H4) Hd.
  assert (Hm : forall v, zone_ok v -> zone_ok (Rmax 0 (v - d))).
  { intros v [Hv1 Hv2]. split; [apply Rmax_l|]. apply Rmax_lub; lra. }
  destruct z; unfold health_ok; cbn; repeat split;
    try apply Hm; try assumption; apply H1 || apply H2 || apply H3 || apply H4.
Qed.

Lemma handleCarCollision_health_ok (p t : Car) (last now rnd1 rnd2 : R)
    (pops : list DamagePopup) :
  health_ok (health p) -> health_ok (health t) ->
  let r := handleCarCollision p t last pops rnd1 rnd2 now in
  health_ok (health (cr_player r)) /\ health_ok (health (cr_target r)).
Proof.
  intros Hp Ht. cbv zeta.
  unfold handleCarCollision, checkCarCollision, Rgtb, Rltb, Reqb,
    MIN_IMPACT_FOR_DAMAGE, DAMAGE_MULTIPLIER, ATTACKER_DAMAGE_RATIO.
  car_simpl.
  split_dec; car_simpl; try (split; assumption);
    split; apply health_ok_clamp; try assumption;
    first [apply Rmult_le_pos; [apply js_round_nonneg; lra|lra]
          |apply js_round_nonneg; lra].
Qed.

Lemma updatePlayerCarPhysics_health (c : Car) (input : AnalogInput) :
  health (fst (updatePlayerCarPhysics c input)) = health c.
Proof.
  unfold updatePlayerCarPhysics.
  repeat match goal with
  | |- context [match ?e with pair _ _ => _ end] => destruct e
  end.
  reflexivity.
Qed.

Lemma wall_corner_step_health (c : Car) (f : bool) (p : Point) :
  health (fst (wall_corner_step (c, f) p)) = health c.
Proof.
  unfold wall_corner_step, Rltb, Rgtb. split_dec; reflexivity.
Qed.

Lemma fold_wall_health (l : list Point) (c : Car) (f : bool) :
  health (fst (fold_left wall_corner_step l (c, f))) = health c.
Proof.
  revert c f; induction l as [|p l IH]; intros c f; [reflexivity|].
  cbn [fold_left]. rewrite <- (wall_corner_step_health c f p).
  destruct (wall_corner_step (c, f) p) as [c' f']. apply IH.
Qed.

Lemma handleWallCollisions_health (c : Car) (rnd : R) :
  health (fst (handleWallCollisions c rnd)) = health c.
Proof.
  unfold handleWallCollisions.
  pose proof (fold_wall_health (getCarCorners c) c false) as H.
  destruct (fold_left wall_corner_step (getCarCorners c) (c, false)) as [c' []];
    exact H.
Qed.

Lemma interpolate_entry_ok (e : InterpolatedCar) :
  health_ok (health (target e)) -> entry_ok (interpolate_entry e).
Proof. intros H. split; exact H. Qed.

Lemma on_players_ok (pid : option string) (players : list PlayerState)
    (m : gmap string InterpolatedCar) :
  Forall (fun s => health_ok (ps_health s)) players ->
  map_Forall (fun _ e => entry_ok e) m ->
  map_Forall (fun _ e => entry_ok e) (on_players pid players m).
Proof.
  intros Hs Hm id e He.
  destruct (fold_players_lookup pid m players ∅ id) as [_ H2].
  destruct (H2 e He) as [Ha|(p & Hp & Hid & _ & ->)].
  - rewrite lookup_empty in Ha. discriminate.
  - rewrite List.Forall_forall in Hs. pose proof (Hs p Hp) as Hok.
    unfold roster_entry. destruct (m !! ps_id p) as [old|] eqn:E.
    + split; [apply (Hm _ _ E)|exact Hok].
    + split; exact Hok.
Qed.

Lemma get_set_zone_eq (h : Health) (z : HitZone) (v : R) :
  get_zone (set_zone h z v) z = v.
Proof. destruct z; reflexivity. Qed.

Lemma get_set_zone_ne (h : Health) (z z' : HitZone) (v : R) :
  z' <> z -> get_zone (set_zone h z v) z' = get_zone h z'.
Proof. intros Hne. destruct z, z'; cbn; congruence. Qed.

(** Lowering one zone, clamped at 0, leaves the other three as they are
    and does not raise the one it touches. *)
Definition lowers_one_zone (h' h : Health) : Prop :=
  exists z, (forall z', z' <> z -> get_zone h' z' = get_zone h z') /\
            get_zone h' z <= get_zone h z.

Lemma lowers_one_zone_refl (h : Health) : lowers_one_zone h h.
Proof. exists ZFront. split; [reflexivity|lra]. Qed.

Lemma lowers_one_zone_clamp (h : Health) (z : HitZone) (d : R) :
  health_ok h -> 0 <= d ->
  lowers_one_zone (set_zone h z (Rmax 0 (get_zone h z - d))) h.
Proof.
  intros Hh Hd. exists z. split.
  - intros z' Hz'. apply get_set_zone_ne. exact Hz'.
  - rewrite get_set_zone_eq. apply Rmax_lub; [|lra].
    destruct Hh as (H1 & H2 & H3 & H4); destruct z; cbn;
      [apply H1|apply H2|apply H3|apply H4].
Qed.

Lemma handleCarCollision_one_zone (p t : Car) (last now rnd1 rnd2 : R)
    (pops : list DamagePopup) :
  health_ok (health p) -> health_ok (health t) ->
  let r := handleCarCollision p t last pops rnd1 rnd2 now in
  lowers_one_zone (health (cr_player r)) (health p) /\
  lowers_one_zone (health (cr_target r)) (health t).
Proof.
  intros Hp Ht. cbv zeta.
  unfold handleCarCollision, checkCarCollision, Rgtb, Rltb, Reqb,
    MIN_IMPACT_FOR_DAMAGE, DAMAGE_MULTIPLIER, ATTACKER_DAMAGE_RATIO.
  car_simpl.
  split_dec; car_simpl; try (split; apply lowers_one_zone_refl);
    split; apply lowers_one_zone_clamp; try assumption;
    first [apply Rmult_le_pos; [apply js_round_nonneg; lra|lra]
          |apply js_round_nonneg; lra].
Qed.

Lemma fold_welcome_ok (id : string) (l : list PlayerState)
    (m : gmap string InterpolatedCar) :
  Forall (fun s => health_ok (ps_health s)) l ->
  map_Forall (fun _ e => entry_ok e) m ->
  map_Forall (fun _ e => entry_ok e) (fold_left (welcome_step id) l m).
Proof.
  revert m; induction l as [|p l IH]; intros m Hl Hm; [exact Hm|].
  apply Forall_cons in Hl as [Hp Hl]. cbn [fold_left]. apply IH; [exact Hl|].
  unfold welcome_step. destruct (negb (String.eqb (ps_id p) id)); [|exact Hm].
  apply map_Forall_insert_2; [split; exact Hp|exact Hm].
Qed.

Lemma on_player_joined_ok (pid : option string) (p : PlayerState)
    (m : gmap string InterpolatedCar) :
  health_ok (ps_health p) ->
  map_Forall (fun _ e => entry_ok e) m ->
  map_Forall (fun _ e => entry_ok e) (on_player_joined pid p m).
Proof.
  intros Hp Hm. unfold on_player_joined.
  destruct (is_other pid (ps_id p)); [|exact Hm].
  apply map_Forall_insert_2; [split; exact Hp|exact Hm].
Qed.

Lemma on_players_target_health (pid : option string) (players : list PlayerState)
    (m : gmap string InterpolatedCar) (id : string) (e : InterpolatedCar) :
  on_players pid players m !! id = Some e ->
  exists s, In s players /\ ps_id s = id /\ health (target e) = ps_health s.
Proof.
  intros He. destruct (fold_players_lookup pid m players ∅ id) as [_ H2].
  destruct (H2 e He) as [Ha|(s & Hs & Hid & _ & ->)].
  - rewrite lookup_empty in Ha. discriminate.
  - exists s. split; [exact Hs|split; [exact Hid|]].
    unfold roster_entry. destruct (m !! ps_id s); reflexivity.
Qed.

(** A snapshot whose front zone is out of range: nothing on the relay or
    the client checks the reported health. *)
Definition ex_state_over : PlayerState :=
  mkPlayerState "conn-b" 1350 900 0 0 0 0 "#3498db" (mkHealth 150 100 100 100).

(** C3 (counterexample): a ["players"] update carrying a zone of 150 puts
    a remote car with a front zone of 150 into the reconciliation map. *)
Lemma remote_health_out_of_range :
  exists e, on_players (Some "conn-a") [ex_state_over] ∅ !! "conn-b" = Some e /\
            ~ zone_ok (front (health (current e))).
Proof.
  eexists. split.
  - unfold on_players. cbn [fold_left]. unfold players_step. cbn [is_other ps_id].
    cbn. rewrite lookup_empty, lookup_insert_eq. reflexivity.
  - cbn. unfold zone_ok. lra.
Qed.

(** C3 (amended): the local operations keep every zone in [[0, 100]]:
    [createCar] starts every zone at 100, the integrator and the wall
    collision do not touch health, and the vehicle-vehicle collision lowers
    at most one zone of either car, clamped at 0, leaving the other three
    as they are.  The reconciliation layer copies the health received from
    the network verbatim (neither the relay nor the client validates it):
    the ["welcome"], ["players"] and ["player-joined"] cases, the
    ["player-left"] case and the interpolation keep every entry in range
    provided the received snapshots are, and the health of a snapshot is
    what gets stored. *)
Theorem health_bounds :
  (forall x0 y0 col a st,
     health (createCar x0 y0 col a st) = mkHealth 100 100 100 100 /\
     health_ok (health (createCar x0 y0 col a st))) /\
  (forall c input, health (fst (updatePlayerCarPhysics c input)) = health c) /\
  (forall c rnd, health (fst (handleWallCollisions c rnd)) = health c) /\
  (forall p t last pops rnd1 rnd2 now,
     health_ok (health p) -> health_ok (health t) ->
     let r := handleCarCollision p t last pops rnd1 rnd2 now in
     (health_ok (health (cr_player r)) /\ health_ok (health (cr_target r))) /\
     (lowers_one_zone (health (cr_player r)) (health p) /\
      lowers_one_zone (health (cr_target r)) (health t))) /\
  (forall m, map_Forall (fun _ e => health_ok (health (target e))) m ->
     map_Forall (fun _ e => entry_ok e) (interpolateOtherPlayers m)) /\
  (forall id players,
     Forall (fun s => health_ok (ps_health s)) players ->
     map_Forall (fun _ e => entry_ok e) (on_welcome id players)) /\
  (forall pid players m,
     Forall (fun s => health_ok (ps_health s)) players ->
     map_Forall (fun _ e => entry_ok e) m ->
     map_Forall (fun _ e => entry_ok e) (on_players pid players m)) /\
  (forall pid p m,
     health_ok (ps_health p) ->
     map_Forall (fun _ e => entry_ok e) m ->
     map_Forall (fun _ e => entry_ok e) (on_player_joined pid p m)) /\
  (forall id m, map_Forall (fun _ e => entry_ok e) m ->
     map_Forall (fun _ e => entry_ok e) (on_player_left id m)) /\
  (forall pid players m id e,
     on_players pid players m !! id = Some e ->
     exists s, In s players /\ ps_id s = id /\ health (target e) = ps_health s) /\
  (forall pid p m,
     is_other pid (ps_id p) = true ->
     exists e, on_player_joined pid p m !! ps_id p = Some e /\
       health (current e) = ps_health p /\ health (target e) = ps_health p).
Proof.
  split; [|split; [|split; [|split; [|split; [|split;
    [|split; [|split; [|split; [|split]]]]]]]]].
  - intros. split; [reflexivity|]. unfold health_ok, zone_ok. cbn. lra.
  - exact updatePlayerCarPhysics_health.
  - exact handleWallCollisions_health.
  - intros p t last pops rnd1 rnd2 now Hp Ht. split.
    + apply handleCarCollision_health_ok; assumption.
    + apply handleCarCollision_one_zone; assumption.
  - intros m Hm id e He. unfold interpolateOtherPlayers in He.
    rewrite lookup_fmap in He. destruct (m !! id) as [e0|] eqn:E; [|discriminate].
    injection He as <-. apply interpolate_entry_ok. exact (Hm _ _ E).
  - intros id players Hs. unfold on_welcome. apply fold_welcome_ok; [exact Hs|].
    apply map_Forall_empty.
  - exact on_players_ok.
  - exact on_player_joined_ok.
  - intros id m Hm. unfold on_player_left. apply map_Forall_delete. exact Hm.
  - exact on_players_target_health.
  - intros pid p m Ho. unfold on_player_joined. rewrite Ho.
    eexists. split; [apply lookup_insert_eq|split; reflexivity].
Qed.

(* ------------------------------------------------------------------ *)
(** ** Wall containment *)

Lemma abs_le_norm (a b : R) : Rabs a <= sqrt (a * a + b * b).
Proof.
  rewrite <- sqrt_Rsqr_abs. apply sqrt_le_1_alt. unfold Rsqr. nra.
Qed.

Lemma clamp_bound (a b : R) :
  let ns := sqrt (a * a + b * b) in
  Rabs (fst (if Rgtb ns MAX_SPEED then (a / ns * MAX_SPEED, b / ns * MAX_SPEED) else (a, b))) <= 8 /\
  Rabs (snd (if Rgtb ns MAX_SPEED then (a / ns * MAX_SPEED, b / ns * MAX_SPEED) else (a, b))) <= 8.
Proof.
  intros ns. pose proof (abs_le_norm a b) as Ha.
  pose proof (abs_le_norm b a) as Hb. rewrite Rplus_comm in Hb. fold ns in Ha, Hb.
  unfold Rgtb, MAX_SPEED. destruct (Rlt_dec 8 ns) as [Hgt|Hle]; cbn [fst snd].
  - assert (Hd : forall u, Rabs u <= ns -> Rabs (u / ns * 8) <= 8).
    { intros u Hu. unfold Rdiv. rewrite !Rabs_mult, Rabs_inv.
      rewrite (Rabs_pos_eq ns) by lra. rewrite (Rabs_pos_eq 8) by lra.
      apply (Rmult_le_reg_r (/ 8)); [lra|].
      rewrite Rmult_assoc, Rinv_r, Rmult_1_r by lra.
      apply (Rmult_le_reg_r ns); [lra|].
      rewrite Rmult_assoc, Rinv_l, Rmult_1_r by lra. lra. }
    split; apply Hd; assumption.
  - split; lra.
Qed.

Lemma wall_1d (lo hi xc o1 o2 p1 p2 p3 p4 : R) :
  200 <= hi - lo -> lo - 8 <= xc <= hi + 8 ->
  -40 <= o1 <= 40 -> -40 <= o2 <= 40 ->
  p1 = xc + o1 -> p2 = xc + o2 -> p3 = xc - o1 -> p4 = xc - o2 ->
  let tot := wall_shift p1 lo hi + (wall_shift p2 lo hi
         + (wall_shift p3 lo hi + (wall_shift p4 lo hi + 0))) in
  (lo <= p1 + tot <= hi /\ lo <= p2 + tot <= hi) /\
  (lo <= p3 + tot <= hi /\ lo <= p4 + tot <= hi).
Proof.
  intros Hw Hx H1 H2 -> -> -> -> tot. unfold tot, wall_shift, Rltb, Rgtb.
  split_dec; lra.
Qed.

Lemma updatePlayerCarPhysics_pos (c : Car) (input : AnalogInput) :
  Rabs (x (fst (updatePlayerCarPhysics c input)) - x c) <= 8 /\
  Rabs (y (fst (updatePlayerCarPhysics c input)) - y c) <= 8 /\
  width (fst (updatePlayerCarPhysics c input)) = width c /\
  height (fst (updatePlayerCarPhysics c input)) = height c.
Proof.
  unfold updatePlayerCarPhysics. cbv zeta.
  repeat match goal with
  | |- context [match ?e with pair _ _ => _ end] =>
      lazymatch e with
      | (if Rgtb (sqrt (?a * ?a + ?b * ?b)) _ then _ else _) =>
          pose proof (clamp_bound a b) as HC; cbv zeta in HC;
          revert HC; destruct e as [u v]; cbn [fst snd]; intros HC
      | _ => destruct e
      end
  end.
  cbn [fst x y width height].
  replace (x c + u - x c) with u by ring.
  replace (y c + v - y c) with v by ring.
  tauto.
Qed.

Lemma wall_corner_step_pos (c : Car) (f : bool) (p : Point) :
  let c' := fst (wall_corner_step (c, f) p) in
  x c' = x c + shift_x p /\ y c' = y c + shift_y p /\
  angle c' = angle c /\ width c' = width c /\ height c' = height c.
Proof.
  unfold shift_x, shift_y, wall_shift, wall_corner_step.
  destruct (Rltb (ptx p) WALL_THICKNESS); car_simpl;
  destruct (Rgtb (ptx p) (WORLD_WIDTH - WALL_THICKNESS)); car_simpl;
  destruct (Rltb (pty p) WALL_THICKNESS); car_simpl;
  destruct (Rgtb (pty p) (WORLD_HEIGHT - WALL_THICKNESS));
  car_simpl; repeat split; ring.
Qed.

Lemma fold_wall_pos (l : list Point) (c : Car) (f : bool) :
  let c' := fst (fold_left wall_corner_step l (c, f)) in
  x c' = x c + sum_shift shift_x l /\ y c' = y c + sum_shift shift_y l /\
  angle c' = angle c /\ width c' = width c /\ height c' = height c.
Proof.
  revert c f; induction l as [|p l IH]; intros c f; cbn zeta.
  - cbn. repeat split; ring.
  - cbn [fold_left sum_shift].
    pose proof (wall_corner_step_pos c f p) as Hs. cbn zeta in Hs.
    destruct (wall_corner_step (c, f) p) as [c1 f1]. cbn [fst] in Hs.
    destruct (IH c1 f1) as (H1 & H2 & H3 & H4 & H5).
    destruct Hs as (G1 & G2 & G3 & G4 & G5).
    repeat split; lra || congruence.
Qed.

Lemma handleWallCollisions_pos (c : Car) (rnd : R) :
  let c' := fst (handleWallCollisions c rnd) in
  x c' = x c + sum_shift shift_x (getCarCorners c) /\
  y c' = y c + sum_shift shift_y (getCarCorners c) /\
  angle c' = angle c /\ width c' = width c /\ height c' = height c.
Proof.
  unfold handleWallCollisions. cbv zeta.
  pose proof (fold_wall_pos (getCarCorners c) c false) as Hf. cbv zeta in Hf.
  destruct (fold_left wall_corner_step (getCarCorners c) (c, false)) as [c1 b].
  destruct b; exact Hf.
Qed.

Lemma corners_in_bounds_iff (c : Car) :
  corners_in_bounds c <->
  in_box (mkPoint (x c + cos (angle c) * (width c / 2) - sin (angle c) * (height c / 2))
                  (y c + sin (angle c) * (width c / 2) + cos (angle c) * (height c / 2))) /\
  in_box (mkPoint (x c + cos (angle c) * (width c / 2) + sin (angle c) * (height c / 2))
                  (y c + sin (angle c) * (width c / 2) - cos (angle c) * (height c / 2))) /\
  in_box (mkPoint (x c - cos (angle c) * (width c / 2) + sin (angle c) * (height c / 2))
                  (y c - sin (angle c) * (width c / 2) - cos (angle c) * (height c / 2))) /\
  in_box (mkPoint (x c - cos (angle c) * (width c / 2) - sin (angle c) * (height c / 2))
                  (y c - sin (angle c) * (width c / 2) + cos (angle c) * (height c / 2))).
Proof.
  unfold corners_in_bounds, getCarCorners. rewrite !Forall_cons, Forall_nil. tauto.
Qed.

Lemma abs_le_split (a b : R) : Rabs a <= b -> - b <= a <= b.
Proof.
  intros H. pose proof (Rle_abs a). pose proof (Rle_abs (- a)).
  rewrite Rabs_Ropp in *. lra.
Qed.

Lemma tick_in_bounds (c : Car) (input : AnalogInput) (rnd : R) :
  width c = CAR_WIDTH -> height c = CAR_HEIGHT -> corners_in_bounds c ->
  corners_in_bounds (tick c input rnd) /\
  width (tick c input rnd) = CAR_WIDTH /\ height (tick c input rnd) = CAR_HEIGHT.
Proof.
  intros Hw Hh Hin.
  apply corners_in_bounds_iff in Hin. unfold in_box in Hin. cbn [ptx pty] in Hin.
  destruct Hin as ((A1 & A2) & (B1 & B2) & (C1 & C2) & (D1 & D2)).
  destruct (updatePlayerCarPhysics_pos c input) as (P1 & P2 & P3 & P4).
  apply abs_le_split in P1. apply abs_le_split in P2.
  unfold tick.
  set (c1 := fst (updatePlayerCarPhysics c input)) in *.
  destruct (handleWallCollisions_pos c1 rnd) as (W1 & W2 & W3 & W4 & W5).
  set (c2 := fst (handleWallCollisions c1 rnd)) in *.
  unfold getCarCorners, shift_x, shift_y in W1, W2. cbn [sum_shift ptx pty] in W1, W2.
  rewrite corners_in_bounds_iff. unfold in_box. cbn [ptx pty].
  rewrite W3, W4, W5, P3, P4, Hw, Hh in *. rewrite W1, W2.
  set (co := cos (angle c1)) in *. set (si := sin (angle c1)) in *.
  pose proof (COS_bound (angle c1)) as Hc. pose proof (SIN_bound (angle c1)) as Hs.
  fold co in Hc. fold si in Hs.
  unfold CAR_WIDTH, CAR_HEIGHT, WALL_THICKNESS, WORLD_WIDTH, WORLD_HEIGHT in *.
  destruct (wall_1d 20 (2700 - 20) (x c1) (co * (50 / 2) - si * (30 / 2))
              (co * (50 / 2) + si * (30 / 2))
              (x c1 + co * (50 / 2) - si * (30 / 2))
              (x c1 + co * (50 / 2) + si * (30 / 2))
              (x c1 - co * (50 / 2) + si * (30 / 2))
              (x c1 - co * (50 / 2) - si * (30 / 2)))
    as ((X1 & X2) & (X3 & X4)); try lra.
  destruct (wall_1d 20 (1800 - 20) (y c1) (si * (50 / 2) + co * (30 / 2))
              (si * (50 / 2) - co * (30 / 2))
              (y c1 + si * (50 / 2) + co * (30 / 2))
              (y c1 + si * (50 / 2) - co * (30 / 2))
              (y c1 - si * (50 / 2) - co * (30 / 2))
              (y c1 - si * (50 / 2) + co * (30 / 2)))
    as ((Y1 & Y2) & (Y3 & Y4)); lra.
Qed.

Lemma run_in_bounds (n : nat) (c : Car) (inputs : nat -> AnalogInput) (rnds : nat -> R) :
  width c = CAR_WIDTH -> height c = CAR_HEIGHT -> corners_in_bounds c ->
  corners_in_bounds (run n c inputs rnds) /\
  width (run n c inputs rnds) = CAR_WIDTH /\ height (run n c inputs rnds) = CAR_HEIGHT.
Proof.
  intros Hw Hh Hin. induction n as [|k IH]; cbn [run].
  - tauto.
  - destruct IH as (I1 & I2 & I3). apply tick_in_bounds; assumption.
Qed.

(** C6: wall containment.  Start from a car of the standard size whose
    four corners lie inside the playfield inset by [WALL_THICKNESS].  Then
    after every tick, for any number of ticks and any inputs (in particular
    full forward input towards a wall), every corner of the car after the
    wall correction lies in [WALL_THICKNESS, WORLD_WIDTH - WALL_THICKNESS]
    x [WALL_THICKNESS, WORLD_HEIGHT - WALL_THICKNESS]. *)

Theorem wall_containment (n : nat) (c : Car) (inputs : nat -> AnalogInput) (rnds : nat -> R) :
  width c = CAR_WIDTH -> height c = CAR_HEIGHT -> corners_in_bounds c ->
  corners_in_bounds (run n c inputs rnds).
Proof.
  intros Hw Hh Hin. apply (run_in_bounds n c inputs rnds Hw Hh Hin).
Qed.

Lemma createCar_near_wall_in_bounds :
  corners_in_bounds (createCar 2650 900 "red" 0 false).
Proof.
  apply corners_in_bounds_iff. unfold in_box, createCar. cbn [x y angle width height ptx pty].
  rewrite cos_0, sin_0.
  unfold CAR_WIDTH, CAR_HEIGHT, WALL_THICKNESS, WORLD_WIDTH, WORLD_HEIGHT. lra.
Qed.

Lemma wall_containment_witness :
  corners_in_bounds (run 30 (createCar 2650 900 "red" 0 false)
                       (fun _ => mkInput 1 0 0 0) (fun _ => 0.5)).
Proof.
  apply (wall_containment 30 (createCar 2650 900 "red" 0 false)
           (fun _ => mkInput 1 0 0 0) (fun _ => 0.5));
    [reflexivity | reflexivity | apply createCar_near_wall_in_bounds].
Defined.

(* ================================================================== *)
(** * Further properties of the game, the relay and the client *)

(* ------------------------------------------------------------------ *)
(** ** The integrators *)

Lemma Rgtb_false (a b : R) : a <= b -> Rgtb a b = false.
Proof. intros H. unfold Rgtb. destruct (Rlt_dec b a); [lra|reflexivity]. Qed.

Lemma Rltb_false (a b : R) : b <= a -> Rltb a b = false.
Proof. intros H. unfold Rltb. destruct (Rlt_dec a b); [lra|reflexivity]. Qed.


Lemma clamp_vel_speed (a b : R) :
  sqrt (fst (clamp_vel a b) * fst (clamp_vel a b) + snd (clamp_vel a b) * snd (clamp_vel a b))
  <= Rmin MAX_SPEED (sqrt (a * a + b * b)).
Proof.
  unfold clamp_vel, Rgtb, MAX_SPEED. set (ns := sqrt (a * a + b * b)).
  assert (Hns : 0 <= ns) by apply sqrt_pos.
  destruct (Rlt_dec 8 ns) as [H|H]; cbn [fst snd].
  - assert (Hsq : ns * ns = a * a + b * b) by (apply sqrt_sqrt; nra).
    assert (E : a / ns * 8 * (a / ns * 8) + b / ns * 8 * (b / ns * 8) = 8 * 8).
    { unfold Rdiv.
      replace (a * / ns * 8 * (a * / ns * 8) + b * / ns * 8 * (b * / ns * 8))
        with ((a * a + b * b) * (/ ns * / ns) * 64) by ring.
      rewrite <- Hsq. field. lra. }
    rewrite E, sqrt_square by lra. apply Rmin_glb; lra.
  - rewrite Rmin_right by lra. unfold ns. lra.
Qed.

Lemma updatePlayerCarPhysics_shape (c : Car) (input : AnalogInput) :
  exists a b w,
    fst (updatePlayerCarPhysics c input) =
    mkCar (x c + fst (clamp_vel a b)) (y c + snd (clamp_vel a b))
          (fst (clamp_vel a b)) (snd (clamp_vel a b))
          (angle c + Rmax (- MAX_ANGULAR_VEL) (Rmin MAX_ANGULAR_VEL w) * ANGULAR_FRICTION)
          (Rmax (- MAX_ANGULAR_VEL) (Rmin MAX_ANGULAR_VEL w) * ANGULAR_FRICTION)
          (width c) (height c) (color c) (health c) (isStatic c).
Proof.
  unfold updatePlayerCarPhysics. cbv zeta.
  match goal with |- context [Rmin MAX_ANGULAR_VEL ?w] => set (W := w) end.
  repeat match goal with
  | |- context [match ?e with pair _ _ => _ end] =>
      lazymatch e with
      | (if Rgtb (sqrt (?a * ?a + ?b * ?b)) _ then _ else _) =>
          exists a, b, W; unfold clamp_vel; destruct e; reflexivity
      | _ => destruct e
      end
  end.
Qed.

(** Friction in the car's frame: the forward component is scaled by [k1],
    the sideways one by [k2 <= k1], so the speed shrinks at least by [k1]. *)
Lemma frame_friction (co si u v k1 k2 : R) :
  co * co + si * si = 1 -> 0 <= k2 <= k1 ->
  (co * ((u * co + v * si) * k1) + - si * ((u * - si + v * co) * k2)) *
  (co * ((u * co + v * si) * k1) + - si * ((u * - si + v * co) * k2)) +
  (si * ((u * co + v * si) * k1) + co * ((u * - si + v * co) * k2)) *
  (si * ((u * co + v * si) * k1) + co * ((u * - si + v * co) * k2))
  <= k1 * k1 * (u * u + v * v).
Proof.
  intros H1 [H2 H3].
  set (fv := u * co + v * si). set (sv := u * - si + v * co).
  assert (E : (co * (fv * k1) + - si * (sv * k2)) * (co * (fv * k1) + - si * (sv * k2)) +
              (si * (fv * k1) + co * (sv * k2)) * (si * (fv * k1) + co * (sv * k2)) =
              (co * co + si * si) * (k1 * k1 * (fv * fv) + k2 * k2 * (sv * sv))) by ring.
  rewrite E, H1, Rmult_1_l.
  assert (Hfs : fv * fv + sv * sv = u * u + v * v).
  { transitivity ((co * co + si * si) * (u * u + v * v)); [unfold fv, sv; ring|].
    rewrite H1. ring. }
  rewrite <- Hfs.
  assert (0 <= (k1 * k1 - k2 * k2) * (sv * sv)) by (apply Rmult_le_pos; nra).
  lra.
Qed.

Lemma sqrt_scale_le (p q k : R) :
  0 <= k -> p <= k * k * q -> sqrt p <= k * sqrt q.
Proof.
  intros Hk H.
  destruct (Rle_dec 0 q) as [Hq|Hq].
  - rewrite <- (sqrt_square k) by exact Hk. rewrite <- sqrt_mult_alt by nra.
    apply sqrt_le_1_alt. lra.
  - assert (p <= 0) by nra. rewrite (sqrt_neg_0 p) by lra.
    apply Rmult_le_pos; [exact Hk|apply sqrt_pos].
Qed.

Lemma cos_sin_1 (a : R) : cos a * cos a + sin a * sin a = 1.
Proof. pose proof (sin2_cos2 a) as H. unfold Rsqr in H. lra. Qed.

(** The angular-velocity clamp followed by the friction. *)
Lemma angular_clamp_bound (w : R) :
  Rabs (Rmax (- MAX_ANGULAR_VEL) (Rmin MAX_ANGULAR_VEL w) * ANGULAR_FRICTION)
  <= MAX_ANGULAR_VEL * ANGULAR_FRICTION.
Proof.
  unfold MAX_ANGULAR_VEL, ANGULAR_FRICTION, Rmax, Rmin.
  repeat destruct Rle_dec; apply Rabs_le; lra.
Qed.

(** [updatePlayerCarPhysics] leaves the car no faster than [MAX_SPEED],
    with an angular velocity of at most [MAX_ANGULAR_VEL * ANGULAR_FRICTION]
    in absolute value, and moves it by exactly its new velocity. *)
Theorem updatePlayerCarPhysics_bounds (c : Car) (input : AnalogInput) :
  let c' := fst (updatePlayerCarPhysics c input) in
  sqrt (vx c' * vx c' + vy c' * vy c') <= MAX_SPEED /\
  Rabs (angularVel c') <= MAX_ANGULAR_VEL * ANGULAR_FRICTION /\
  x c' = x c + vx c' /\ y c' = y c + vy c'.
Proof.
  destruct (updatePlayerCarPhysics_shape c input) as (a & b & w & E).
  cbv zeta. rewrite E. cbn [x y vx vy angularVel].
  split; [|split; [apply angular_clamp_bound|split; reflexivity]].
  eapply Rle_trans; [apply clamp_vel_speed|apply Rmin_l].
Qed.

(** With neither the forward nor the reverse input pressed, one call of
    [updatePlayerCarPhysics] scales the speed down by at least
    [FORWARD_FRICTION], whatever the steering. *)
Theorem updatePlayerCarPhysics_coasting (c : Car) (input : AnalogInput) :
  forward input <= 0 -> reverse input <= 0 ->
  let c' := fst (updatePlayerCarPhysics c input) in
  sqrt (vx c' * vx c' + vy c' * vy c') <=
  FORWARD_FRICTION * sqrt (vx c * vx c + vy c * vy c).
Proof.
  intros Hf Hr. unfold updatePlayerCarPhysics.
  rewrite (Rgtb_false (forward input) 0 Hf), (Rgtb_false (reverse input) 0 Hr).
  cbv beta iota zeta.
  match goal with
  | |- context [match ?e with pair _ _ => _ end] =>
      lazymatch e with
      | (if Rgtb (sqrt (?a * ?a + ?b * ?b)) _ then _ else _) =>
          lazymatch a with
          | cos ?A * _ + _ =>
              pose proof (clamp_vel_speed a b) as HC; unfold clamp_vel in HC;
              pose proof (frame_friction (cos A) (sin A) (vx c) (vy c)
                            FORWARD_FRICTION SIDEWAYS_FRICTION (cos_sin_1 A)) as HF;
              revert HC; destruct e as [u v]; cbn [fst snd vx vy]; intros HC
          end
      end
  end.
  unfold FORWARD_FRICTION, SIDEWAYS_FRICTION in *.
  specialize (HF ltac:(lra)).
  eapply Rle_trans; [apply (Rle_trans _ _ _ HC), Rmin_r|].
  apply sqrt_scale_le; lra.
Qed.

(** One call of [updateTargetCarPhysics]. *)
Lemma updateTargetCarPhysics_step (c : Car) :
  let c' := updateTargetCarPhysics c in
  sqrt (vx c' * vx c' + vy c' * vy c') <= 0.96 * sqrt (vx c * vx c + vy c * vy c) /\
  angularVel c' = angularVel c * 0.92 /\
  x c' = x c + vx c' /\ y c' = y c + vy c'.
Proof.
  unfold updateTargetCarPhysics. cbv zeta. cbn [vx vy x y angularVel].
  split; [|repeat split].
  apply sqrt_scale_le; [lra|].
  apply (frame_friction (cos (angle c)) (sin (angle c)) (vx c) (vy c) 0.96 0.9
           (cos_sin_1 _)). lra.
Qed.

(** Left to itself, a car driven by [updateTargetCarPhysics] slows down
    geometrically: after [n] calls its speed is at most [0.96^n] times the
    initial speed and its angular velocity is exactly [0.92^n] times the
    initial one; each call moves it by its new velocity. *)
Theorem updateTargetCarPhysics_decay (n : nat) (c : Car) :
  let c' := Nat.iter n updateTargetCarPhysics c in
  sqrt (vx c' * vx c' + vy c' * vy c') <= 0.96 ^ n * sqrt (vx c * vx c + vy c * vy c) /\
  angularVel c' = 0.92 ^ n * angularVel c.
Proof.
  induction n as [|n [IH1 IH2]]; cbv zeta in *.
  - change (Nat.iter 0 updateTargetCarPhysics c) with c. cbn [pow]. split; lra.
  - change (Nat.iter (S n) updateTargetCarPhysics c)
      with (updateTargetCarPhysics (Nat.iter n updateTargetCarPhysics c)).
    destruct (updateTargetCarPhysics_step (Nat.iter n updateTargetCarPhysics c))
      as (S1 & S2 & _). cbv zeta in S1, S2.
    split.
    + eapply Rle_trans; [exact S1|]. cbn [pow].
      rewrite Rmult_assoc. apply Rmult_le_compat_l; [lra|exact IH1].
    + rewrite S2, IH2. cbn [pow]. ring.
Qed.

(* ------------------------------------------------------------------ *)
(** ** Collision resolution *)

Lemma Rltb_true (a b : R) : a < b -> Rltb a b = true.
Proof. intros H. unfold Rltb. destruct (Rlt_dec a b); [reflexivity|lra]. Qed.

Lemma Reqb_false (a b : R) : a <> b -> Reqb a b = false.
Proof. intros H. unfold Reqb. destruct (Req_dec_T a b); [contradiction|reflexivity]. Qed.

Lemma checkCarCollision_true (p t : Car) :
  sqrt ((x t - x p) * (x t - x p) + (y t - y p) * (y t - y p)) <
    (width p + width t) / 2 * 0.85 ->
  checkCarCollision p t = true.
Proof. intros H. unfold checkCarCollision. destruct (Rlt_dec _ _); [reflexivity|lra]. Qed.

(** The motion part of a resolved collision: the cars are pushed apart
    along the normal, 60% / 40%, and their velocities get impulses along the
    normal whose coefficients add up to [0.7 + 0.7 * 0.8]. *)
Lemma handleCarCollision_motion (p t : Car) (last now rnd1 rnd2 : R)
    (pops : list DamagePopup) :
  let dx := x t - x p in
  let dy := y t - y p in
  let distance := sqrt (dx * dx + dy * dy) in
  let minDist := (width p + width t) / 2 * 0.85 in
  let nx := dx / distance in
  let ny := dy / distance in
  let ic := (vx p - vx t) * nx + (vy p - vy t) * ny in
  let sf := minDist - distance + 2 in
  0 < distance < minDist ->
  let r := handleCarCollision p t last pops rnd1 rnd2 now in
  exists kp kt, kp + kt = 0.7 + 0.7 * 0.8 /\
    x (cr_player r) = x p - nx * sf * 0.6 /\ y (cr_player r) = y p - ny * sf * 0.6 /\
    x (cr_target r) = x t + nx * sf * 0.4 /\ y (cr_target r) = y t + ny * sf * 0.4 /\
    vx (cr_player r) = vx p - nx * ic * kp /\ vy (cr_player r) = vy p - ny * ic * kp /\
    vx (cr_target r) = vx t + nx * ic * kt /\ vy (cr_target r) = vy t + ny * ic * kt /\
    width (cr_player r) = width p /\ width (cr_target r) = width t.
Proof.
  intros dx dy distance minDist nx ny ic sf [H0 H1] r.
  assert (Hne : distance <> 0) by lra.
  subst r sf ic ny nx minDist distance dx dy.
  unfold handleCarCollision. cbv zeta.
  rewrite (checkCarCollision_true p t H1), (Rltb_true _ _ H1), (Reqb_false _ _ Hne).
  cbn [negb orb].
  destruct (Rgtb _ 0); car_simpl;
    [exists 0.7, (0.7 * 0.8)|exists (0.7 * 0.8), 0.7];
    (destruct (Rltb (now - last) 150);
     [|destruct (Rgtb _ MIN_IMPACT_FOR_DAMAGE)]); car_simpl;
    repeat split; ring.
Qed.

Lemma normal_unit (dx dy : R) :
  0 < sqrt (dx * dx + dy * dy) ->
  dx / sqrt (dx * dx + dy * dy) * (dx / sqrt (dx * dx + dy * dy)) +
  dy / sqrt (dx * dx + dy * dy) * (dy / sqrt (dx * dx + dy * dy)) = 1.
Proof.
  intros H. set (d := sqrt (dx * dx + dy * dy)) in *.
  assert (Hd : d * d = dx * dx + dy * dy).
  { unfold d. apply sqrt_sqrt. nra. }
  replace (dx / d * (dx / d) + dy / d * (dy / d)) with ((dx * dx + dy * dy) / (d * d))
    by (field; lra).
  rewrite <- Hd. field. lra.
Qed.

(** When [handleCarCollision] resolves an overlap (the centres are
    closer than the collision distance but not at the same point), the
    relative velocity of the two cars along the contact normal is reversed
    and scaled by [0.26], in both impulse branches, while its component
    along the tangent is kept. *)
Theorem handleCarCollision_relative_velocity (p t : Car) (last now rnd1 rnd2 : R)
    (pops : list DamagePopup) :
  let dx := x t - x p in
  let dy := y t - y p in
  let distance := sqrt (dx * dx + dy * dy) in
  let nx := dx / distance in
  let ny := dy / distance in
  0 < distance < (width p + width t) / 2 * 0.85 ->
  let r := handleCarCollision p t last pops rnd1 rnd2 now in
  let rvx := vx (cr_player r) - vx (cr_target r) in
  let rvy := vy (cr_player r) - vy (cr_target r) in
  rvx * nx + rvy * ny = - 0.26 * ((vx p - vx t) * nx + (vy p - vy t) * ny) /\
  rvx * - ny + rvy * nx = (vx p - vx t) * - ny + (vy p - vy t) * nx.
Proof.
  intros dx dy distance nx ny Hd r rvx rvy.
  destruct (handleCarCollision_motion p t last now rnd1 rnd2 pops Hd)
    as (kp & kt & Hk & _ & _ & _ & _ & E1 & E2 & E3 & E4 & _).
  fold dx dy distance nx ny in E1, E2, E3, E4.
  subst rvx rvy r. rewrite E1, E2, E3, E4.
  assert (Hn : nx * nx + ny * ny = 1) by (apply normal_unit; exact (proj1 Hd)).
  set (ic := (vx p - vx t) * nx + (vy p - vy t) * ny).
  split.
  - transitivity (ic - ic * (kp + kt) * (nx * nx + ny * ny)); [unfold ic; ring|].
    rewrite Hn, Hk. lra.
  - ring.
Qed.

(** One resolution separates the cars: after [handleCarCollision] has
    resolved an overlap, their centres are exactly the collision distance
    plus 2 apart, so [checkCarCollision] no longer reports a collision. *)
Theorem handleCarCollision_separates (p t : Car) (last now rnd1 rnd2 : R)
    (pops : list DamagePopup) :
  let distance := sqrt ((x t - x p) * (x t - x p) + (y t - y p) * (y t - y p)) in
  0 < distance < (width p + width t) / 2 * 0.85 ->
  let r := handleCarCollision p t last pops rnd1 rnd2 now in
  let p' := cr_player r in
  let t' := cr_target r in
  sqrt ((x t' - x p') * (x t' - x p') + (y t' - y p') * (y t' - y p')) =
    (width p + width t) / 2 * 0.85 + 2 /\
  checkCarCollision p' t' = false.
Proof.
  intros distance Hd r p' t'.
  destruct (handleCarCollision_motion p t last now rnd1 rnd2 pops Hd)
    as (kp & kt & _ & X1 & Y1 & X2 & Y2 & _ & _ & _ & _ & W1 & W2).
  fold distance in X1, Y1, X2, Y2.
  set (m := (width p + width t) / 2 * 0.85) in *.
  set (dx := x t - x p) in *. set (dy := y t - y p) in *.
  assert (Hn : dx / distance * (dx / distance) + dy / distance * (dy / distance) = 1)
    by (apply normal_unit; exact (proj1 Hd)).
  assert (Ex : x t' - x p' = dx / distance * (m + 2)).
  { subst p' t' r. rewrite X1, X2.
    assert (A : dx / distance * (m + 2) = dx / distance * (m - distance + 2) + dx)
      by (field; lra).
    rewrite A. unfold dx. lra. }
  assert (Ey : y t' - y p' = dy / distance * (m + 2)).
  { subst p' t' r. rewrite Y1, Y2.
    assert (A : dy / distance * (m + 2) = dy / distance * (m - distance + 2) + dy)
      by (field; lra).
    rewrite A. unfold dy. lra. }
  assert (E : sqrt ((x t' - x p') * (x t' - x p') + (y t' - y p') * (y t' - y p')) = m + 2).
  { rewrite Ex, Ey.
    replace (dx / distance * (m + 2) * (dx / distance * (m + 2)) +
             dy / distance * (m + 2) * (dy / distance * (m + 2)))
      with ((dx / distance * (dx / distance) + dy / distance * (dy / distance)) *
            ((m + 2) * (m + 2))) by ring.
    rewrite Hn, Rmult_1_l. apply sqrt_square. lra. }
  split; [exact E|].
  unfold checkCarCollision. subst p' t' r. rewrite E, W1, W2. fold m.
  destruct (Rlt_dec _ _); [lra|reflexivity].
Qed.

(** The cooldown of [handleCarCollision]: either the call leaves the
    collision time, the popups and both cars' health as they were, or it
    sets the time to [now], which is then at least 150 ms after the last
    damaging hit, and pushes exactly one popup.  Health never changes
    without the time moving to [now]. *)
Theorem handleCarCollision_cooldown (p t : Car) (last now rnd1 rnd2 : R)
    (pops : list DamagePopup) :
  let r := handleCarCollision p t last pops rnd1 rnd2 now in
  (cr_time r = last /\ cr_popups r = pops /\
   health (cr_player r) = health p /\ health (cr_target r) = health t) \/
  (cr_time r = now /\ 150 <= now - last /\ exists popup, cr_popups r = pops ++ [popup]).
Proof.
  intros r. subst r. unfold handleCarCollision. cbv zeta.
  destruct (negb (checkCarCollision p t)); [left; car_simpl; auto|].
  destruct (negb (Rltb _ _) || Reqb _ 0); [left; car_simpl; auto|].
  destruct (Rgtb _ 0); car_simpl;
    (destruct (Rltb (now - last) 150) eqn:Et;
     [|destruct (Rgtb _ MIN_IMPACT_FOR_DAMAGE)]); car_simpl;
    try (left; repeat split; reflexivity);
    right; (split; [reflexivity|split; [|eexists; reflexivity]]);
    (unfold Rltb in Et; destruct (Rlt_dec _ _) in Et; [discriminate|lra]).
Qed.

(* ------------------------------------------------------------------ *)
(** ** The wall pass *)

Lemma Rltb_false_le (a b : R) : Rltb a b = false -> b <= a.
Proof. unfold Rltb. destruct (Rlt_dec a b); [discriminate|lra]. Qed.

Lemma Rgtb_false_le (a b : R) : Rgtb a b = false -> a <= b.
Proof. unfold Rgtb. destruct (Rlt_dec b a); [discriminate|lra]. Qed.

Lemma Rltb_true_lt (a b : R) : Rltb a b = true -> a < b.
Proof. unfold Rltb. destruct (Rlt_dec a b); [tauto|discriminate]. Qed.

Lemma Rgtb_true_lt (a b : R) : Rgtb a b = true -> b < a.
Proof. unfold Rgtb. destruct (Rlt_dec b a); [tauto|discriminate]. Qed.

Lemma wall_corner_step_in (c : Car) (f : bool) (p : Point) :
  in_box p -> wall_corner_step (c, f) p = (c, f).
Proof.
  unfold in_box. intros [[H1 H2] [H3 H4]]. unfold wall_corner_step.
  rewrite (Rltb_false (ptx p) WALL_THICKNESS H1),
          (Rgtb_false (ptx p) (WORLD_WIDTH - WALL_THICKNESS) H2),
          (Rltb_false (pty p) WALL_THICKNESS H3),
          (Rgtb_false (pty p) (WORLD_HEIGHT - WALL_THICKNESS) H4).
  reflexivity.
Qed.

Lemma wall_corner_step_out (c : Car) (f : bool) (p : Point) :
  ~ in_box p -> snd (wall_corner_step (c, f) p) = true.
Proof.
  intros Hp. unfold wall_corner_step.
  destruct (Rltb (ptx p) WALL_THICKNESS) eqn:E1; car_simpl;
  destruct (Rgtb (ptx p) (WORLD_WIDTH - WALL_THICKNESS)) eqn:E2; car_simpl;
  destruct (Rltb (pty p) WALL_THICKNESS) eqn:E3; car_simpl;
  destruct (Rgtb (pty p) (WORLD_HEIGHT - WALL_THICKNESS)) eqn:E4; car_simpl;
  try reflexivity.
  exfalso. apply Hp. unfold in_box.
  apply Rltb_false_le in E1, E3. apply Rgtb_false_le in E2, E4. lra.
Qed.

Lemma wall_corner_step_flag (c : Car) (p : Point) :
  snd (wall_corner_step (c, true) p) = true.
Proof.
  unfold wall_corner_step.
  destruct (Rltb (ptx p) WALL_THICKNESS); car_simpl;
  destruct (Rgtb (ptx p) (WORLD_WIDTH - WALL_THICKNESS)); car_simpl;
  destruct (Rltb (pty p) WALL_THICKNESS); car_simpl;
  destruct (Rgtb (pty p) (WORLD_HEIGHT - WALL_THICKNESS)); car_simpl;
  reflexivity.
Qed.

Lemma fold_wall_flag (l : list Point) (c : Car) :
  snd (fold_left wall_corner_step l (c, true)) = true.
Proof.
  revert c; induction l as [|p l IH]; intros c; [reflexivity|].
  cbn [fold_left].
  pose proof (wall_corner_step_flag c p) as H.
  destruct (wall_corner_step (c, true) p) as [c1 f1]. cbn [snd] in H. subst f1.
  apply IH.
Qed.

Lemma fold_wall_in (l : list Point) (c : Car) (f : bool) :
  Forall in_box l -> fold_left wall_corner_step l (c, f) = (c, f).
Proof.
  induction 1 as [|p l Hp Hl IH]; [reflexivity|].
  cbn [fold_left]. rewrite wall_corner_step_in by exact Hp. exact IH.
Qed.

Lemma in_box_dec (p : Point) : {in_box p} + {~ in_box p}.
Proof.
  unfold in_box.
  destruct (Rle_dec WALL_THICKNESS (ptx p)); [|right; tauto].
  destruct (Rle_dec (ptx p) (WORLD_WIDTH - WALL_THICKNESS)); [|right; tauto].
  destruct (Rle_dec WALL_THICKNESS (pty p)); [|right; tauto].
  destruct (Rle_dec (pty p) (WORLD_HEIGHT - WALL_THICKNESS)); [|right; tauto].
  left; tauto.
Qed.

Lemma fold_wall_out (l : list Point) (c : Car) (f : bool) :
  ~ Forall in_box l -> snd (fold_left wall_corner_step l (c, f)) = true.
Proof.
  revert c f; induction l as [|p l IH]; intros c f Hl.
  - exfalso. apply Hl. constructor.
  - cbn [fold_left]. destruct (in_box_dec p) as [Hp|Hp].
    + rewrite wall_corner_step_in by exact Hp. apply IH.
      intros H. apply Hl. constructor; assumption.
    + pose proof (wall_corner_step_out c f p Hp) as H.
      destruct (wall_corner_step (c, f) p) as [c1 f1]. cbn [snd] in H. subst f1.
      apply fold_wall_flag.
Qed.

(** [handleWallCollisions] reports a collision exactly when a corner of
    the car lies outside the area inset by the wall thickness, and a car
    whose four corners are all inside is returned untouched (no push, no
    bounce, no random spin). *)
Theorem handleWallCollisions_flag (c : Car) (rnd : R) :
  (snd (handleWallCollisions c rnd) = false <-> corners_in_bounds c) /\
  (corners_in_bounds c -> handleWallCollisions c rnd = (c, false)).
Proof.
  unfold corners_in_bounds.
  assert (Hin : Forall in_box (getCarCorners c) -> handleWallCollisions c rnd = (c, false)).
  { intros H. unfold handleWallCollisions. cbv zeta.
    rewrite (fold_wall_in _ c false H). reflexivity. }
  split; [|exact Hin]. split.
  - intros Hf. destruct (List.Forall_dec in_box in_box_dec (getCarCorners c)) as [H|H];
      [exact H|exfalso].
    pose proof (fold_wall_out (getCarCorners c) c false H) as Ho.
    unfold handleWallCollisions in Hf. cbv zeta in Hf.
    destruct (fold_left wall_corner_step (getCarCorners c) (c, false)) as [c1 b].
    cbn [snd] in Ho. subst b. discriminate.
  - intros H. rewrite (Hin H). reflexivity.
Qed.

Ltac wall_abs :=
  unfold BOUNCE_FACTOR, COLLISION_DAMPING;
  repeat (rewrite Rabs_mult || rewrite Rabs_Ropp || rewrite Rabs_Rabsolu);
  rewrite ?(Rabs_pos_eq 0.5), ?(Rabs_pos_eq 0.7) by lra.

Lemma wall_corner_step_vel (c : Car) (f : bool) (p : Point) :
  let c' := fst (wall_corner_step (c, f) p) in
  Rabs (vx c') <= Rabs (vx c) /\ Rabs (vy c') <= Rabs (vy c).
Proof.
  unfold wall_corner_step. cbv zeta.
  pose proof (Rabs_pos (vx c)). pose proof (Rabs_pos (vy c)).
  destruct (Rltb (ptx p) WALL_THICKNESS); car_simpl;
  destruct (Rgtb (ptx p) (WORLD_WIDTH - WALL_THICKNESS)); car_simpl;
  destruct (Rltb (pty p) WALL_THICKNESS); car_simpl;
  destruct (Rgtb (pty p) (WORLD_HEIGHT - WALL_THICKNESS)); car_simpl;
  wall_abs; split; nra.
Qed.

(** The wall pass never speeds a car up: neither component of the
    velocity grows in absolute value (a bounce keeps half of it and the
    damping 70% of that). *)
Theorem handleWallCollisions_no_speedup (c : Car) (rnd : R) :
  let c' := fst (handleWallCollisions c rnd) in
  Rabs (vx c') <= Rabs (vx c) /\ Rabs (vy c') <= Rabs (vy c).
Proof.
  assert (Hf : forall l c0 f, let c1 := fst (fold_left wall_corner_step l (c0, f)) in
            Rabs (vx c1) <= Rabs (vx c0) /\ Rabs (vy c1) <= Rabs (vy c0)).
  { induction l as [|p l IH]; intros c0 f; cbn zeta; [cbn; lra|].
    cbn [fold_left].
    pose proof (wall_corner_step_vel c0 f p) as Hs. cbv zeta in Hs.
    destruct (wall_corner_step (c0, f) p) as [c1 f1]. cbn [fst] in Hs.
    specialize (IH c1 f1). cbv zeta in IH. lra. }
  unfold handleWallCollisions. cbv zeta.
  specialize (Hf (getCarCorners c) c false). cbv zeta in Hf.
  destruct (fold_left wall_corner_step (getCarCorners c) (c, false)) as [c1 b].
  destruct b; car_simpl; exact Hf.
Qed.

(* ------------------------------------------------------------------ *)
(** ** The camera *)

(** [updateCamera] keeps the view inside the world for every player
    position: the camera lies in
    [[0, WORLD_WIDTH - CANVAS_WIDTH] x [0, WORLD_HEIGHT - CANVAS_HEIGHT]].
    Away from the world's edges (the player between 585 and 2115
    horizontally, between 390 and 1410 vertically) the player ends up
    inside the scroll margins: between 315 and 585 pixels from the left of
    the canvas and between 210 and 390 from its top. *)
Theorem updateCamera_view (cam : Camera) (player : Car) :
  let cam' := updateCamera cam player in
  (0 <= cam_x cam' <= WORLD_WIDTH - CANVAS_WIDTH /\
   0 <= cam_y cam' <= WORLD_HEIGHT - CANVAS_HEIGHT) /\
  (585 <= x player <= 2115 -> 390 <= y player <= 1410 ->
   315 <= x player - cam_x cam' <= 585 /\ 210 <= y player - cam_y cam' <= 390).
Proof.
  unfold updateCamera. cbv zeta. cbn [cam_x cam_y].
  unfold WORLD_WIDTH, WORLD_HEIGHT, CANVAS_WIDTH, CANVAS_HEIGHT, SCROLL_THRESHOLD in *.
  split.
  - unfold Rmax, Rmin. split; repeat destruct Rle_dec; lra.
  - intros Hx Hy.
    destruct (Rltb (x player - cam_x cam) (900 * 0.35)) eqn:E1;
      [apply Rltb_true_lt in E1|apply Rltb_false_le in E1;
       destruct (Rgtb (x player - cam_x cam) (900 - 900 * 0.35)) eqn:E2;
       [apply Rgtb_true_lt in E2|apply Rgtb_false_le in E2]];
    (destruct (Rltb (y player - cam_y cam) (600 * 0.35)) eqn:F1;
      [apply Rltb_true_lt in F1|apply Rltb_false_le in F1;
       destruct (Rgtb (y player - cam_y cam) (600 - 600 * 0.35)) eqn:F2;
       [apply Rgtb_true_lt in F2|apply Rgtb_false_le in F2]]);
    unfold Rmax, Rmin; repeat destruct Rle_dec; lra.
Qed.

(* ------------------------------------------------------------------ *)
(** ** Damage popups *)

Lemma filter_map_comm {A B : Type} (f : B -> bool) (g : A -> B) (l : list A) :
  List.filter f (List.map g l) = List.map g (List.filter (fun a => f (g a)) l).
Proof.
  induction l as [|a l IH]; [reflexivity|]. cbn. destruct (f (g a)); cbn; congruence.
Qed.

Lemma filter_filter_and {A : Type} (f g h : A -> bool) (l : list A) :
  (forall a, h a = f a && g a) ->
  List.filter g (List.filter f l) = List.filter h l.
Proof.
  intros Hh. induction l as [|a l IH]; [reflexivity|]. cbn. rewrite Hh.
  destruct (f a); cbn; [destruct (g a); cbn; congruence|exact IH].
Qed.

Lemma updateDamagePopups_iter_S (n : nat) (l : list DamagePopup) :
  Nat.iter (S n) updateDamagePopups l =
  List.map (age_by (INR (S n)))
    (List.filter (fun p => Rltb (age p + INR (S n)) 60) l).
Proof.
  induction n as [|n IH].
  - change (Nat.iter 1 updateDamagePopups l) with (updateDamagePopups l).
    unfold updateDamagePopups. rewrite filter_map_comm. reflexivity.
  - change (Nat.iter (S (S n)) updateDamagePopups l)
      with (updateDamagePopups (Nat.iter (S n) updateDamagePopups l)).
    rewrite IH. unfold updateDamagePopups.
    rewrite List.map_map, filter_map_comm.
    rewrite (filter_filter_and _ _ (fun p => Rltb (age p + INR (S (S n))) 60)).
    + apply List.map_ext. intros p. unfold age_popup, age_by. cbn [px py damage zone age].
      rewrite (S_INR (S n)). f_equal; ring.
    + intros p. unfold age_popup, age_by. cbn [age]. rewrite (S_INR (S n)).
      unfold Rltb. destruct (Rlt_dec (age p + INR (S n)) 60);
        destruct (Rlt_dec (age p + INR (S n) + 1) 60);
        destruct (Rlt_dec (age p + (INR (S n) + 1)) 60); cbn; reflexivity || lra.
Qed.

(** After [n + 1] calls of [updateDamagePopups] the list holds exactly the
    popups whose age plus [n + 1] is still below 60, in their original
    order, each one [n + 1] frames older and [n + 1] pixels higher. *)
Theorem updateDamagePopups_iter (n : nat) (l : list DamagePopup) :
  Nat.iter (S n) updateDamagePopups l =
  List.map (fun p => mkPopup (px p) (py p - INR (S n)) (damage p) (zone p)
                             (age p + INR (S n)))
    (List.filter (fun p => Rltb (age p + INR (S n)) 60) l).
Proof. exact (updateDamagePopups_iter_S n l). Qed.

(** Popups expire: whatever the list, as long as no age is negative (the
    collision code pushes them with age 0), 60 calls of
    [updateDamagePopups] empty it. *)
Theorem updateDamagePopups_expire (l : list DamagePopup) :
  Forall (fun p => 0 <= age p) l -> Nat.iter 60 updateDamagePopups l = [].
Proof.
  intros Hl. change 60%nat with (S 59). rewrite updateDamagePopups_iter_S.
  assert (H60 : INR (S 59) = 60) by (rewrite INR_IZR_INZ; reflexivity).
  rewrite H60.
  induction Hl as [|p l Hp Hl IH]; [reflexivity|]. cbn [List.filter].
  rewrite (Rltb_false (age p + 60) 60) by lra. exact IH.
Qed.

(* ------------------------------------------------------------------ *)
(** ** Car geometry *)

(** [getCarCorners] returns the four corners, in order, of a
    [width x height] rectangle centred on the car and turned by its angle:
    both diagonals have their midpoint at the centre, consecutive corners
    are [height], [width], [height] and [width] apart, and the sides meet at
    right angles. *)
Theorem getCarCorners_rectangle (c : Car) :
  exists p1 p2 p3 p4, getCarCorners c = [p1; p2; p3; p4] /\
    ptx p1 + ptx p3 = 2 * x c /\ pty p1 + pty p3 = 2 * y c /\
    ptx p2 + ptx p4 = 2 * x c /\ pty p2 + pty p4 = 2 * y c /\
    (ptx p2 - ptx p1) ^ 2 + (pty p2 - pty p1) ^ 2 = height c ^ 2 /\
    (ptx p3 - ptx p2) ^ 2 + (pty p3 - pty p2) ^ 2 = width c ^ 2 /\
    (ptx p4 - ptx p3) ^ 2 + (pty p4 - pty p3) ^ 2 = height c ^ 2 /\
    (ptx p1 - ptx p4) ^ 2 + (pty p1 - pty p4) ^ 2 = width c ^ 2 /\
    (ptx p2 - ptx p1) * (ptx p3 - ptx p2) + (pty p2 - pty p1) * (pty p3 - pty p2) = 0.
Proof.
  unfold getCarCorners. cbv zeta. do 4 eexists. split; [reflexivity|].
  cbn [ptx pty]. pose proof (cos_sin_1 (angle c)) as H.
  set (co := cos (angle c)) in *. set (si := sin (angle c)) in *.
  repeat split; try ring.
  - transitivity (height c ^ 2 * (co * co + si * si)); [field|rewrite H; ring].
  - transitivity (width c ^ 2 * (co * co + si * si)); [field|rewrite H; ring].
  - transitivity (height c ^ 2 * (co * co + si * si)); [field|rewrite H; ring].
  - transitivity (width c ^ 2 * (co * co + si * si)); [field|rewrite H; ring].
Qed.

(** [checkCarCollision] does not depend on the order of its arguments. *)
Theorem checkCarCollision_sym (c1 c2 : Car) :
  checkCarCollision c1 c2 = checkCarCollision c2 c1.
Proof.
  unfold checkCarCollision.
  replace ((x c1 - x c2) * (x c1 - x c2) + (y c1 - y c2) * (y c1 - y c2))
    with ((x c2 - x c1) * (x c2 - x c1) + (y c2 - y c1) * (y c2 - y c1)) by ring.
  rewrite (Rplus_comm (width c2)). reflexivity.
Qed.

(** [getHitZone] depends on the collision angle only up to whole turns:
    adding [2 k PI] to it never changes the zone (the two normalised
    angles can only differ at [-PI] and [PI], which are both rear). *)
Theorem getHitZone_periodic (c : Car) (a : R) (k : Z) :
  getHitZone c (a + 2 * PI * IZR k) = getHitZone c a.
Proof.
  unfold getHitZone. pose proof PI_RGT_0 as Hpi.
  destruct (normalize_angle_spec (a - angle c)) as ((L1 & U1) & (k1 & H1) & _).
  destruct (normalize_angle_spec (a + 2 * PI * IZR k - angle c)) as ((L2 & U2) & (k2 & H2) & _).
  set (r1 := normalize_angle (a - angle c)) in *.
  set (r2 := normalize_angle (a + 2 * PI * IZR k - angle c)) in *.
  assert (Hm : r2 = r1 + 2 * PI * IZR (k + k2 - k1)).
  { rewrite H1, H2, minus_IZR, plus_IZR. ring. }
  assert (Hu : IZR (k + k2 - k1) <= 1).
  { apply (Rmult_le_reg_l (2 * PI)); lra. }
  assert (Hl : -1 <= IZR (k + k2 - k1)).
  { apply (Rmult_le_reg_l (2 * PI)); lra. }
  apply le_IZR in Hu. apply (le_IZR (-1)) in Hl.
  destruct (zone_of_relative_spec r1) as (_ & _ & _ & R1).
  destruct (zone_of_relative_spec r2) as (_ & _ & _ & R2).
  assert (Hc : (k + k2 - k1 = 0 \/ k + k2 - k1 = 1 \/ k + k2 - k1 = -1)%Z) by lia.
  destruct Hc as [E|[E|E]]; rewrite E in Hm.
  - rewrite Hm. f_equal. lra.
  - rewrite (proj2 R1), (proj2 R2); [reflexivity| |]; lra.
  - rewrite (proj2 R1), (proj2 R2); [reflexivity| |]; lra.
Qed.

(* ------------------------------------------------------------------ *)
(** ** Network records *)

(** [playerStateToCar] undoes [carToPlayerState] exactly on the cars it
    can describe (the standard 50 x 30 size, not static), and
    [carToPlayerState] undoes [playerStateToCar] on every state. *)
Theorem playerState_round_trip (c : Car) (id : string) (s : PlayerState) :
  (playerStateToCar (carToPlayerState c id) = c <->
   width c = 50 /\ height c = 30 /\ isStatic c = false) /\
  carToPlayerState (playerStateToCar s) (ps_id s) = s.
Proof.
  split.
  - destruct c. unfold playerStateToCar, carToPlayerState. cbn.
    split; [intros H; injection H; intros; subst; auto|].
    intros (-> & -> & ->). reflexivity.
  - destruct s. reflexivity.
Qed.

Lemma length_colors : INR (length colors) = 10.
Proof. rewrite INR_IZR_INZ. reflexivity. Qed.

Lemma generateRandomColor_index (rnd : R) (i : nat) :
  INR i <= rnd * 10 < INR i + 1 -> generateRandomColor rnd = nth_error colors i.
Proof.
  intros H. unfold generateRandomColor. rewrite length_colors.
  assert (E : Int_part (rnd * 10) = Z.of_nat i).
  { symmetry. apply Int_part_spec. rewrite <- INR_IZR_INZ. lra. }
  rewrite E. destruct (Z.ltb_spec (Z.of_nat i) 0); [lia|]. rewrite Nat2Z.id. reflexivity.
Qed.

(** [generateRandomColor] on a draw of [Math.random()] (in [[0, 1)])
    always picks a colour of the palette, and the [i]-th colour exactly
    when the draw lies in [[i / 10, (i + 1) / 10)]. *)
Theorem generateRandomColor_palette (rnd : R) :
  0 <= rnd < 1 ->
  exists i col, (i < length colors)%nat /\ nth_error colors i = Some col /\
    INR i / 10 <= rnd < (INR i + 1) / 10 /\ generateRandomColor rnd = Some col /\
    In col colors.
Proof.
  intros Hr.
  set (z := Int_part (rnd * 10)).
  destruct (base_Int_part (rnd * 10)) as [B1 B2]. fold z in B1, B2.
  assert (Hz0 : (-1 < z)%Z) by (apply lt_IZR; lra).
  assert (Hz1 : (z < 10)%Z) by (apply lt_IZR; lra).
  set (i := Z.to_nat z).
  assert (Hi : INR i = IZR z) by (unfold i; rewrite INR_IZR_INZ, Z2Nat.id by lia; reflexivity).
  assert (Hlen : (i < length colors)%nat) by (cbn [length colors]; unfold i; lia).
  destruct (nth_error colors i) as [col|] eqn:Hn;
    [|apply nth_error_None in Hn; lia].
  exists i, col. split; [exact Hlen|]. split; [exact Hn|]. split; [|split].
  - rewrite Hi. split; lra.
  - rewrite <- Hn. apply generateRandomColor_index. rewrite Hi. lra.
  - apply (nth_error_In colors i Hn).
Qed.

(* ------------------------------------------------------------------ *)
(** ** The relay's roster *)

Lemma corners_in_bounds_of_centre (c : Car) :
  width c = 50 -> height c = 30 ->
  60 <= x c <= 2640 -> 60 <= y c <= 1740 -> corners_in_bounds c.
Proof.
  intros Hw Hh Hx Hy. apply corners_in_bounds_iff. unfold in_box.
  cbn [ptx pty]. rewrite Hw, Hh.
  pose proof (COS_bound (angle c)). pose proof (SIN_bound (angle c)).
  unfold WALL_THICKNESS, WORLD_WIDTH, WORLD_HEIGHT. repeat split; lra.
Qed.

(** A ["join"] puts the sender in the roster under its connection id,
    with a fresh state whatever it had before: full health, at rest, at a
    random position in [[1250, 1450) x [800, 1000)] (its car lies inside
    the walls), heading in [[0, 2 PI)]; every other entry is kept, and the
    joined message goes to everyone but the sender. *)
Theorem on_join_spec (players : gmap string PlayerState) (sender col : string)
    (r1 r2 r3 : R) :
  0 <= r1 < 1 -> 0 <= r2 < 1 -> 0 <= r3 < 1 ->
  let res := onMessage players sender (Some (CJoin col)) r1 r2 r3 in
  exists s, fst res !! sender = Some s /\
    ps_id s = sender /\ ps_color s = col /\ ps_health s = mkHealth 100 100 100 100 /\
    ps_vx s = 0 /\ ps_vy s = 0 /\ ps_angularVel s = 0 /\
    1250 <= ps_x s < 1450 /\ 800 <= ps_y s < 1000 /\ 0 <= ps_angle s < 2 * PI /\
    corners_in_bounds (playerStateToCar s) /\
    (forall k, k <> sender -> fst res !! k = players !! k) /\
    snd res = [mkBroadcast (MPlayerJoined s) [sender]].
Proof.
  intros H1 H2 H3 res. subst res. cbn [onMessage on_join fst snd].
  pose proof PI_RGT_0.
  eexists. split; [apply lookup_insert_eq|]. cbn [ps_id ps_color ps_health ps_vx ps_vy
    ps_angularVel ps_x ps_y ps_angle].
  do 8 (split; [try reflexivity; lra|]).
  split; [nra|]. split.
  - apply corners_in_bounds_of_centre; cbn; lra.
  - split; [|reflexivity]. intros k Hk. apply lookup_insert_ne. congruence.
Qed.


(** Every roster entry of the relay is stored under its own id: the
    invariant holds for the empty roster and every [onMessage] (including
    messages that do not parse) and [onClose] keeps it. *)
Theorem relay_ids_ok (players : gmap string PlayerState) (sender : string)
    (msg : option ClientMessage) (r1 r2 r3 : R) :
  ids_ok players ->
  ids_ok (fst (onMessage players sender msg r1 r2 r3)) /\
  ids_ok (fst (onClose players sender)).
Proof.
  unfold ids_ok. intros H. split; [|apply map_Forall_delete, H].
  destruct msg as [[state|col|]|]; cbn [onMessage on_join on_leave fst].
  - unfold on_update. destruct (players !! sender); cbn [fst]; [|exact H].
    apply map_Forall_insert_2; [reflexivity|exact H].
  - apply map_Forall_insert_2; [reflexivity|exact H].
  - apply map_Forall_delete, H.
  - exact H.
Qed.

(* ------------------------------------------------------------------ *)
(** ** The client's table of other players *)


Lemma fold_welcome_self (id : string) (l : list PlayerState)
    (m : gmap string InterpolatedCar) :
  m !! id = None -> fold_left (welcome_step id) l m !! id = None.
Proof.
  revert m; induction l as [|p l IH]; intros m Hm; [exact Hm|].
  cbn [fold_left]. apply IH. unfold welcome_step.
  destruct (String.eqb_spec (ps_id p) id) as [E|E]; cbn [negb]; [exact Hm|].
  rewrite lookup_insert_ne by congruence. exact Hm.
Qed.

Lemma fold_players_self (me : string) (cur : gmap string InterpolatedCar)
    (l : list PlayerState) (m : gmap string InterpolatedCar) :
  m !! me = None -> fold_left (players_step (Some me) cur) l m !! me = None.
Proof.
  revert m; induction l as [|p l IH]; intros m Hm; [exact Hm|].
  cbn [fold_left]. apply IH. unfold players_step, is_other.
  destruct (String.eqb_spec (ps_id p) me) as [E|E]; cbn [negb]; [exact Hm|].
  destruct (cur !! ps_id p); rewrite lookup_insert_ne by congruence; exact Hm.
Qed.

(** The client never tracks itself among the other players: after any
    message of the relay, and after an interpolation step, its own id (once
    known) has no entry in [otherPlayersRef.current], provided it had none
    before. *)
Theorem client_self_untracked (st : ClientState) (msg : ServerMessage) :
  self_untracked st ->
  self_untracked (client_onmessage st msg) /\
  self_untracked (mkClient (cl_playerId st) (interpolateOtherPlayers (cl_others st))).
Proof.
  unfold self_untracked. intros H. split.
  - destruct msg as [players|p|id|id players]; cbn [client_onmessage cl_playerId cl_others].
    + destruct (cl_playerId st) as [me|]; [|exact I].
      unfold on_players. apply fold_players_self. apply lookup_empty.
    + destruct (cl_playerId st) as [me|]; [|exact I].
      unfold on_player_joined, is_other.
      destruct (String.eqb_spec (ps_id p) me) as [E|E]; cbn [negb]; [exact H|].
      rewrite lookup_insert_ne by congruence. exact H.
    + destruct (cl_playerId st) as [me|]; [|exact I].
      unfold on_player_left. destruct (String.eqb_spec id me) as [->|E].
      * apply lookup_delete_eq.
      * rewrite lookup_delete_ne by congruence. exact H.
    + unfold on_welcome. apply fold_welcome_self. apply lookup_empty.
  - cbn [cl_playerId cl_others]. destruct (cl_playerId st) as [me|]; [|exact I].
    unfold interpolateOtherPlayers. rewrite lookup_fmap, H. reflexivity.
Qed.

Lemma fold_welcome_lookup (id : string) (kvs : list (string * PlayerState))
    (m : gmap string InterpolatedCar) (k : string) :
  NoDup kvs.*1 -> Forall (fun kv => ps_id (snd kv) = fst kv) kvs ->
  fold_left (welcome_step id) (List.map snd kvs) m !! k =
  if String.eqb k id then m !! k else
  match (list_to_map kvs : gmap string PlayerState) !! k with
  | Some s => Some (mkInterpolated (playerStateToCar s) (playerStateToCar s))
  | None => m !! k
  end.
Proof.
  revert m; induction kvs as [|[k0 s0] rest IH]; intros m Hd Hf.
  - cbn [List.map fold_left]. rewrite list_to_map_nil, lookup_empty.
    destruct (String.eqb k id); reflexivity.
  - cbn in Hd. apply NoDup_cons in Hd as [Hk0 Hd].
    apply Forall_cons in Hf as [Hs0 Hf]. cbn [fst snd] in Hs0.
    cbn [List.map fold_left]. rewrite (IH _ Hd Hf), list_to_map_cons.
    unfold welcome_step. cbn [fst snd].
    destruct (String.eqb_spec k id) as [Hki|Hkid]; [subst k|].
    + destruct (String.eqb_spec (ps_id s0) id) as [E|E]; cbn [negb]; [reflexivity|].
      apply lookup_insert_ne. congruence.
    + destruct (String.eqb_spec k k0) as [Hkk|Hkk]; [subst k|].
      * rewrite lookup_insert_eq, (not_elem_of_list_to_map_1 rest k0 Hk0).
        destruct (String.eqb_spec (ps_id s0) id) as [E|E]; [congruence|].
        cbn [negb]. rewrite Hs0. apply lookup_insert_eq.
      * rewrite lookup_insert_ne by congruence.
        destruct ((list_to_map rest : gmap string PlayerState) !! k); [reflexivity|].
        destruct (String.eqb_spec (ps_id s0) id) as [E|E]; cbn [negb]; [reflexivity|].
        apply lookup_insert_ne. congruence.
Qed.

(** Relay and client together: the welcome the relay sends a new
    connection ([onConnect]), handled by the client, gives the client its
    id and a table holding exactly the other players of the relay's roster,
    each with the roster's state as both current and target car. *)
Theorem welcome_tracks_others (players : gmap string PlayerState) (connId : string)
    (st : ClientState) :
  ids_ok players ->
  let st' := client_onmessage st (onConnect players connId) in
  cl_playerId st' = Some connId /\
  forall k, cl_others st' !! k =
    if String.eqb k connId then None
    else (fun s => mkInterpolated (playerStateToCar s) (playerStateToCar s)) <$> players !! k.
Proof.
  intros Hok st'. subst st'. cbn [onConnect client_onmessage cl_playerId cl_others].
  split; [reflexivity|]. intros k.
  unfold on_welcome, roster_values.
  rewrite fold_welcome_lookup.
  - rewrite list_to_map_to_list, lookup_empty.
    destruct (String.eqb k connId); [reflexivity|].
    destruct (players !! k); reflexivity.
  - apply NoDup_fst_map_to_list.
  - unfold ids_ok in Hok. apply map_Forall_to_list in Hok.
    eapply Forall_impl; [exact Hok|]. intros [k0 s0] H. exact H.
Qed.

(* ------------------------------------------------------------------ *)
(** ** Spawning *)

(** A car spawned by the page at [getRandomSpawnPosition] (draws in
    [[0, 1)]) starts with its four corners inside the walls, and stays
    there for any number of ticks with any inputs, as long as no other
    player is tracked: each tick is then the integrator followed by the
    wall pass ([tick]); pushes from vehicle-vehicle collisions are not
    covered. *)
Theorem spawn_in_bounds (r1 r2 r3 : R) :
  0 <= r1 < 1 -> 0 <= r2 < 1 ->
  forall n inputs rnds, corners_in_bounds (run n (spawn_car r1 r2 r3) inputs rnds).
Proof.
  intros H1 H2 n inputs rnds.
  unfold spawn_car, getRandomSpawnPosition.
  apply run_in_bounds; [reflexivity|reflexivity|].
  apply corners_in_bounds_of_centre; [reflexivity|reflexivity| |];
    unfold createCar, WALL_THICKNESS, WORLD_WIDTH, WORLD_HEIGHT; cbn [x y]; nra.
Qed.

(* ------------------------------------------------------------------ *)
(** ** Joystick input *)

Lemma applyDeadzone_range (v : R) :
  -1 <= v <= 1 -> 0 <= applyDeadzone v <= 1.
Proof.
  intros Hv. unfold applyDeadzone, deadzone.
  destruct (Rltb (Rabs v) 0.15) eqn:E; [lra|]. apply Rltb_false_le in E.
  assert (Rabs v <= 1) by (apply Rabs_le; lra).
  split; [apply Rmult_le_pos; [lra|apply Rlt_le, Rinv_0_lt_compat; lra]|].
  apply (Rmult_le_reg_r (1 - 0.15)); [lra|]. unfold Rdiv.
  rewrite Rmult_assoc, Rinv_l by lra. lra.
Qed.

Lemma Rpower_1_base (c : R) : Rpower 1 c = 1.
Proof. unfold Rpower. rewrite ln_1, Rmult_0_r. apply exp_0. Qed.

Lemma applySteeringCurve_range (v : R) :
  0 <= v <= 1 -> 0 <= applySteeringCurve v <= 1.
Proof.
  intros Hv. unfold applySteeringCurve.
  destruct (Rlt_dec 0 v); [|lra].
  split; [apply Rlt_le, exp_pos|].
  rewrite <- (Rpower_1_base 1.5). apply Rle_Rpower_l; lra.
Qed.

(** [handleJoystickMove], for stick positions in [[-1, 1]]: all four
    analog inputs lie in [[0, 1]], forward and reverse are never both set,
    nor left and right, and inside the dead zone ([|v| <= 0.15]) an axis
    gives no input. *)
Theorem handleJoystickMove_ranges (ex ey : option R) :
  let x0 := match ex with Some v => v | None => 0 end in
  let y0 := match ey with Some v => v | None => 0 end in
  -1 <= x0 <= 1 -> -1 <= y0 <= 1 ->
  let i := handleJoystickMove ex ey in
  0 <= forward i <= 1 /\ 0 <= reverse i <= 1 /\
  0 <= in_left i <= 1 /\ 0 <= in_right i <= 1 /\
  forward i * reverse i = 0 /\ in_left i * in_right i = 0 /\
  (Rabs y0 <= deadzone -> forward i = 0 /\ reverse i = 0) /\
  (Rabs x0 <= deadzone -> in_left i = 0 /\ in_right i = 0).
Proof.
  intros x0 y0 Hx Hy i. subst i. unfold handleJoystickMove. fold x0 y0.
  cbn [forward reverse in_left in_right].
  pose proof (applyDeadzone_range x0 Hx) as Dx.
  pose proof (applyDeadzone_range y0 Hy) as Dy.
  pose proof (applySteeringCurve_range _ Dx) as Cx.
  pose proof (Rabs_le x0) as Ax. pose proof (Rabs_le y0) as Ay.
  pose proof (Rle_abs x0) as Bx. pose proof (Rle_abs y0) as By.
  pose proof (Rle_abs (- x0)) as Bx'. pose proof (Rle_abs (- y0)) as By'.
  rewrite Rabs_Ropp in Bx', By'.
  destruct (Rgtb y0 deadzone) eqn:E1; [apply Rgtb_true_lt in E1|apply Rgtb_false_le in E1];
  destruct (Rltb y0 (- deadzone)) eqn:E2; [apply Rltb_true_lt in E2|apply Rltb_false_le in E2|
                                       apply Rltb_true_lt in E2|apply Rltb_false_le in E2];
  destruct (Rltb x0 (- deadzone)) eqn:E3; [apply Rltb_true_lt in E3|apply Rltb_false_le in E3|
                                       apply Rltb_true_lt in E3|apply Rltb_false_le in E3|
                                       apply Rltb_true_lt in E3|apply Rltb_false_le in E3|
                                       apply Rltb_true_lt in E3|apply Rltb_false_le in E3];
  destruct (Rgtb x0 deadzone) eqn:E4; try apply Rgtb_true_lt in E4; try apply Rgtb_false_le in E4;
  unfold deadzone in *;
  try lra;
  repeat match goal with |- _ /\ _ => split | |- _ -> _ => intros end; try lra.
Qed.

(* ------------------------------------------------------------------ *)
(** ** Instances of the properties above *)

Lemma ex_distance :
  sqrt ((x ex_car_b - x ex_car_a) * (x ex_car_b - x ex_car_a) +
        (y ex_car_b - y ex_car_a) * (y ex_car_b - y ex_car_a)) = 10.
Proof.
  unfold ex_car_a, ex_car_b. cbn [x y].
  replace ((110 - 100) * (110 - 100) + (100 - 100) * (100 - 100)) with (10 * 10) by ring.
  apply sqrt_square. lra.
Qed.

Lemma ex_overlap :
  0 < sqrt ((x ex_car_b - x ex_car_a) * (x ex_car_b - x ex_car_a) +
            (y ex_car_b - y ex_car_a) * (y ex_car_b - y ex_car_a)) <
  (width ex_car_a + width ex_car_b) / 2 * 0.85.
Proof. rewrite ex_distance. unfold ex_car_a, ex_car_b. cbn [width]. lra. Qed.

Lemma updatePlayerCarPhysics_coasting_witness :
  let c' := fst (updatePlayerCarPhysics ex_car_a (mkInput 0 0 1 0)) in
  sqrt (vx c' * vx c' + vy c' * vy c') <=
  FORWARD_FRICTION * sqrt (vx ex_car_a * vx ex_car_a + vy ex_car_a * vy ex_car_a).
Proof.
  apply (updatePlayerCarPhysics_coasting ex_car_a (mkInput 0 0 1 0));
    cbn [forward reverse]; lra.
Defined.

Lemma handleCarCollision_relative_velocity_witness :
  let r := handleCarCollision ex_car_a ex_car_b 0 [] 0.5 0.5 1000 in
  let d := sqrt ((x ex_car_b - x ex_car_a) * (x ex_car_b - x ex_car_a) +
                 (y ex_car_b - y ex_car_a) * (y ex_car_b - y ex_car_a)) in
  let nx := (x ex_car_b - x ex_car_a) / d in
  let ny := (y ex_car_b - y ex_car_a) / d in
  (vx (cr_player r) - vx (cr_target r)) * nx + (vy (cr_player r) - vy (cr_target r)) * ny =
  - 0.26 * ((vx ex_car_a - vx ex_car_b) * nx + (vy ex_car_a - vy ex_car_b) * ny).
Proof.
  exact (proj1 (handleCarCollision_relative_velocity ex_car_a ex_car_b 0 1000 0.5 0.5 []
                  ex_overlap)).
Defined.

Lemma handleCarCollision_separates_witness :
  let r := handleCarCollision ex_car_a ex_car_b 0 [] 0.5 0.5 1000 in
  checkCarCollision (cr_player r) (cr_target r) = false.
Proof.
  exact (proj2 (handleCarCollision_separates ex_car_a ex_car_b 0 1000 0.5 0.5 []
                  ex_overlap)).
Defined.

Lemma updateCamera_view_witness :
  let player := createCar 1000 700 "#e74c3c" 0 false in
  let cam' := updateCamera (mkCamera 0 0) player in
  315 <= x player - cam_x cam' <= 585 /\ 210 <= y player - cam_y cam' <= 390.
Proof.
  exact (proj2 (updateCamera_view (mkCamera 0 0) (createCar 1000 700 "#e74c3c" 0 false))
                  ltac:(unfold createCar; cbn [x]; lra)
                  ltac:(unfold createCar; cbn [y]; lra)).
Defined.

Lemma updateDamagePopups_expire_witness :
  Nat.iter 60 updateDamagePopups [mkPopup 450 300 9 ZRear 0; mkPopup 100 80 4 ZFront 12] = [].
Proof.
  apply updateDamagePopups_expire.
  constructor; [cbn [age]; lra|]. constructor; [cbn [age]; lra|]. constructor.
Defined.

Lemma generateRandomColor_palette_witness :
  exists col, generateRandomColor 0.5 = Some col /\ In col colors.
Proof.
  destruct (generateRandomColor_palette 0.5 ltac:(lra)) as (i & col & _ & _ & _ & H1 & H2).
  exists col. split; assumption.
Defined.

Lemma on_join_spec_witness :
  exists s, fst (onMessage ∅ "a" (Some (CJoin "#3498db")) 0.5 0.5 0.5) !! "a" = Some s /\
    ps_health s = mkHealth 100 100 100 100 /\ corners_in_bounds (playerStateToCar s).
Proof.
  pose proof (on_join_spec ∅ "a" "#3498db" 0.5 0.5 0.5
                ltac:(lra) ltac:(lra) ltac:(lra)) as H.
  cbv zeta in H.
  destruct H as (s & H1 & _ & _ & H4 & _ & _ & _ & _ & _ & _ & H11 & _).
  exists s. split; [exact H1|split; assumption].
Defined.

Lemma relay_ids_ok_witness :
  ids_ok (fst (onMessage ∅ "a" (Some (CJoin "#3498db")) 0.5 0.5 0.5)).
Proof.
  exact (proj1 (relay_ids_ok ∅ "a" (Some (CJoin "#3498db")) 0.5 0.5 0.5
                  ltac:(unfold ids_ok; apply map_Forall_empty))).
Defined.

Lemma client_self_untracked_witness :
  self_untracked (client_onmessage (mkClient (Some "a") ∅) (MPlayerJoined ex_player)).
Proof.
  exact (proj1 (client_self_untracked (mkClient (Some "a") ∅) (MPlayerJoined ex_player)
                  ltac:(unfold self_untracked; cbn [cl_playerId cl_others];
                        apply lookup_empty))).
Defined.

Lemma ex_roster_ok : ids_ok ex_roster.
Proof.
  unfold ids_ok, ex_roster. apply map_Forall_insert_2; [reflexivity|apply map_Forall_empty].
Qed.

Lemma welcome_tracks_others_witness :
  cl_others (client_onmessage (mkClient None ∅) (onConnect ex_roster "a")) !! "b" =
  Some (mkInterpolated (playerStateToCar ex_player) (playerStateToCar ex_player)).
Proof.
  destruct (welcome_tracks_others ex_roster "a" (mkClient None ∅) ex_roster_ok) as [_ H].
  rewrite (H "b"). unfold ex_roster. rewrite lookup_insert_eq. reflexivity.
Defined.

Lemma spawn_in_bounds_witness :
  corners_in_bounds (run 100 (spawn_car 0.5 0.5 0.5) (fun _ => mkInput 1 0 0 1) (fun _ => 0.5)).
Proof.
  exact (spawn_in_bounds 0.5 0.5 0.5 ltac:(lra) ltac:(lra) 100
           (fun _ => mkInput 1 0 0 1) (fun _ => 0.5)).
Defined.

Lemma handleJoystickMove_ranges_witness :
  let i := handleJoystickMove (Some 0.5) (Some 1) in
  0 <= forward i <= 1 /\ 0 <= in_right i <= 1 /\ forward i * reverse i = 0.
Proof.
  pose proof (handleJoystickMove_ranges (Some 0.5) (Some 1)
                ltac:(cbv beta iota; lra) ltac:(cbv beta iota; lra)) as H.
  cbv zeta in H. destruct H as (H1 & _ & _ & H4 & H5 & _).
  split; [exact H1|split; [exact H4|exact H5]].
Defined.
